(** * Enhanced shot accuracy processor: target inference and accuracy metrics

    A shallow embedding of [enhanced_accuracy_processor.py]: the stone
    differ ([_find_thrown_stone], [_find_removed_stones]), the per-shot-type
    target heuristics behind [infer_target], [calculate_accuracy_metrics]
    and the per-shot driver [process_shot_accuracy]; then the population
    loop [populate_enhanced_accuracy_data], the metric step and the
    parameter export of [complete_accuracy_pipeline.py], the row labelling
    of [generate_large_dataset.py] and [calculate_success_modifiers] of
    [shot_success_analysis.py].

    Numeric convention.  Stone coordinates, errors and confidences are the
    real numbers of the data model; [np.sqrt], [np.arctan2], [np.degrees]
    and [abs] are their mathematical counterparts on [R].  Rounding is not
    modelled; the range of the floats is: [v ** 2] raises [OverflowError]
    when the square of a float exceeds the largest float, and a real beyond
    the largest float stands for an infinite float.  The threshold
    [float('inf')] is a separate constructor of [threshold].  Python
    exceptions are a constructor of [result]; Python's [None] is [option].

    Database convention.  Tables are lists of rows and queries are filters
    over them.  A number handed to a query is a [sql_number]: it keeps the
    type it has in Python, because the database compares a [numpy.int64]
    parameter as a blob. *)

From Stdlib Require Import Reals Lra List String Bool ZArith Lia Sorted.
Import ListNotations.

Open Scope string_scope.
Open Scope list_scope.
Open Scope R_scope.

(** ** Comparisons on reals, as booleans *)

Definition Reqb (a b : R) : bool := if Req_dec_T a b then true else false.
Definition Rleb (a b : R) : bool := if Rle_dec a b then true else false.
Definition Rltb (a b : R) : bool := if Rlt_dec a b then true else false.

Arguments Reqb : simpl never.
Arguments Rleb : simpl never.
Arguments Rltb : simpl never.

(** ** Exceptions *)

Inductive exn : Set := IndexError | ValueError | OverflowError.

Inductive result (A : Type) : Type :=
| Ok (a : A)
| Raise (e : exn).

Arguments Ok {A} a.
Arguments Raise {A} e.

Definition bind {A B : Type} (m : result A) (k : A -> result B) : result B :=
  match m with
  | Ok a => k a
  | Raise e => Raise e
  end.

Notation "x <- m ;; k" := (bind m (fun x => k))
  (at level 61, m at next level, right associativity).

(** [l[i]] *)
Definition index {A : Type} (l : list A) (i : nat) : result A :=
  match nth_error l i with
  | Some a => Ok a
  | None => Raise IndexError
  end.

(** [if l:] on a list *)
Definition truthy {A : Type} (l : list A) : bool :=
  match l with
  | [] => false
  | _ :: _ => true
  end.

(** [[f(a) for a in l]] when [f] can raise: the first exception ends the
    comprehension. *)
Fixpoint map_result {A B : Type} (f : A -> result B) (l : list A)
    : result (list B) :=
  match l with
  | [] => Ok []
  | a :: rest =>
      b <- f a ;;
      bs <- map_result f rest ;;
      Ok (b :: bs)
  end.

(** ** Float range *)

(** The largest float. *)
Definition FLOAT_MAX : R := 2 ^ 1024 - 2 ^ 971.

(** [v ** 2] on a float: [OverflowError] when [v] is finite and its square
    is beyond the largest float; the square of an infinite float is
    infinite and raises nothing. *)
Definition square (v : R) : result R :=
  if Rleb (v ^ 2) FLOAT_MAX then Ok (v ^ 2)
  else if Rleb (Rabs v) FLOAT_MAX then Raise OverflowError
  else Ok (v ^ 2).

(** ** Data model *)

(** A row of [stone_positions], as [to_dict('records')] hands it over:
    [{'color': .., 'x': .., 'y': ..}]. *)
Record stone : Type := mkStone {
  stone_color : string;
  stone_x : R;
  stone_y : R
}.

(** The columns of a [shots] row that the processor reads. *)
Record shot : Type := mkShot {
  shot_id : Z;
  shot_end_id : Z;
  shot_number : Z;
  shot_color : string;
  shot_type : string
}.

(** [{'x': .., 'y': .., 'confidence': ..}] *)
Record inferred_target : Type := mkTarget {
  target_x : R;
  target_y : R;
  confidence : R
}.

(** ** Constants *)

Definition HOUSE_RADIUS : R := 1829 / 1000.
Definition BUTTON_X : R := 0.
Definition BUTTON_Y : R := 0.

Inductive threshold : Set :=
| Fin (r : R)
| Inf.

(** [value <= threshold] *)
Definition le_threshold (v : R) (t : threshold) : bool :=
  match t with
  | Fin r => Rleb v r
  | Inf => true
  end.

(** Dictionaries iterate in insertion order. *)
Definition DISTANCE_THRESHOLDS : list (string * threshold) :=
  [ ("on_target", Fin (20 / 100));
    ("close", Fin (50 / 100));
    ("moderate", Fin 1);
    ("large", Inf) ].

Definition DIRECTION_THRESHOLDS : list (string * threshold) :=
  [ ("on_line", Fin 3);
    ("slight", Fin 8);
    ("moderate", Fin 15);
    ("large", Inf) ].

(** ** Stone differ *)

Definition has_color (c : string) (s : stone) : bool :=
  String.eqb (stone_color s) c.

Definition xy (s : stone) : R * R := (stone_x s, stone_y s).

Definition xy_eqb (p q : R * R) : bool :=
  Reqb (fst p) (fst q) && Reqb (snd p) (snd q).

(** [p in positions] for a set of coordinate pairs *)
Definition xy_in (p : R * R) (positions : list (R * R)) : bool :=
  existsb (xy_eqb p) positions.

Definition cxy (s : stone) : string * R * R :=
  (stone_color s, stone_x s, stone_y s).

Definition cxy_eqb (p q : string * R * R) : bool :=
  String.eqb (fst (fst p)) (fst (fst q))
  && Reqb (snd (fst p)) (snd (fst q))
  && Reqb (snd p) (snd q).

Definition cxy_in (p : string * R * R) (positions : list (string * R * R)) : bool :=
  existsb (cxy_eqb p) positions.

(** The stones of [post_shot_stones] that the search loop of
    [_find_thrown_stone] would accept. *)
Definition is_new_stone (shooting_color : string) (pre_positions : list (R * R))
    (s : stone) : bool :=
  has_color shooting_color s && negb (xy_in (xy s) pre_positions).

Definition _find_thrown_stone (shot_data : shot)
    (pre_shot_stones post_shot_stones : list stone) : option stone :=
  let shooting_color := shot_color shot_data in
  let pre_count := List.length (filter (has_color shooting_color) pre_shot_stones) in
  let post_count := List.length (filter (has_color shooting_color) post_shot_stones) in
  if (pre_count <? post_count)%nat then
    let pre_positions := map xy (filter (has_color shooting_color) pre_shot_stones) in
    find (is_new_stone shooting_color pre_positions) post_shot_stones
  else None.

Definition _find_removed_stones (pre_shot_stones post_shot_stones : list stone)
    : list stone :=
  let post_positions := map cxy post_shot_stones in
  fold_left
    (fun removed s =>
       if negb (cxy_in (cxy s) post_positions) then removed ++ [s] else removed)
    pre_shot_stones [].

(** ** Target inference engine *)

Definition heuristic : Type :=
  shot -> list stone -> list stone -> result inferred_target.

(** [np.sqrt((s['x'] - thrown['x'])**2 + (s['y'] - thrown['y'])**2)] *)
Definition distance_from (thrown_stone s : stone) : result R :=
  dx2 <- square (stone_x s - stone_x thrown_stone) ;;
  dy2 <- square (stone_y s - stone_y thrown_stone) ;;
  Ok (sqrt (dx2 + dy2)).

(** [np.argmin]: the index of the first smallest entry; an empty sequence
    raises [ValueError]. *)
Fixpoint argmin_from (best_idx : nat) (best : R) (idx : nat) (l : list R) : nat :=
  match l with
  | [] => best_idx
  | d :: rest =>
      if Rltb d best then argmin_from idx d (S idx) rest
      else argmin_from best_idx best (S idx) rest
  end.

Definition argmin (l : list R) : result nat :=
  match l with
  | [] => Raise ValueError
  | d :: rest => Ok (argmin_from 0 d 1 rest)
  end.

Definition _infer_draw_target : heuristic :=
  fun shot_data pre_shot_stones post_shot_stones =>
  match _find_thrown_stone shot_data pre_shot_stones post_shot_stones with
  | None => Ok (mkTarget BUTTON_X BUTTON_Y (2 / 10))
  | Some thrown_stone =>
      let final_x := stone_x thrown_stone in
      let final_y := stone_y thrown_stone in
      x2 <- square final_x ;;
      y2 <- square final_y ;;
      let distance_to_button := sqrt (x2 + y2) in
      if Rleb distance_to_button HOUSE_RADIUS
      then Ok (mkTarget final_x final_y (8 / 10))
      else Ok (mkTarget BUTTON_X BUTTON_Y (6 / 10))
  end.

Definition _infer_guard_target : heuristic :=
  fun shot_data pre_shot_stones post_shot_stones =>
  match _find_thrown_stone shot_data pre_shot_stones post_shot_stones with
  | None => Ok (mkTarget 0 (35 / 10) (3 / 10))
  | Some thrown_stone =>
      let final_x := stone_x thrown_stone in
      let final_y := stone_y thrown_stone in
      if Rleb (15 / 10) final_y && Rleb final_y 6
      then Ok (mkTarget final_x final_y (8 / 10))
      else Ok (mkTarget 0 (35 / 10) (5 / 10))
  end.

Definition opponent_of (c : string) : string :=
  if String.eqb c "yellow" then "red" else "yellow".

Definition _infer_takeout_target : heuristic :=
  fun shot_data pre_shot_stones post_shot_stones =>
  let removed_stones := _find_removed_stones pre_shot_stones post_shot_stones in
  if truthy removed_stones then
    target_stone <- index removed_stones 0 ;;
    Ok (mkTarget (stone_x target_stone) (stone_y target_stone) (9 / 10))
  else
    let fallback := Ok (mkTarget BUTTON_X BUTTON_Y (3 / 10)) in
    match _find_thrown_stone shot_data pre_shot_stones post_shot_stones with
    | Some thrown_stone =>
        let opponent_color := opponent_of (shot_color shot_data) in
        let opponent_stones := filter (has_color opponent_color) pre_shot_stones in
        if truthy opponent_stones then
          distances <- map_result (distance_from thrown_stone) opponent_stones ;;
          closest_idx <- argmin distances ;;
          closest_stone <- index opponent_stones closest_idx ;;
          Ok (mkTarget (stone_x closest_stone) (stone_y closest_stone) (7 / 10))
        else fallback
    | None => fallback
    end.

Definition _infer_hit_roll_target : heuristic :=
  fun shot_data pre_shot_stones post_shot_stones =>
  match _find_thrown_stone shot_data pre_shot_stones post_shot_stones with
  | Some thrown_stone =>
      Ok (mkTarget (stone_x thrown_stone) (stone_y thrown_stone) (7 / 10))
  | None => Ok (mkTarget BUTTON_X BUTTON_Y (4 / 10))
  end.

(** [not (s['x'] == thrown_stone['x'] and s['y'] == thrown_stone['y'])] *)
Definition elsewhere (thrown_stone s : stone) : bool :=
  negb (Reqb (stone_x s) (stone_x thrown_stone)
        && Reqb (stone_y s) (stone_y thrown_stone)).

Definition _infer_freeze_target : heuristic :=
  fun shot_data pre_shot_stones post_shot_stones =>
  let fallback := Ok (mkTarget BUTTON_X BUTTON_Y (4 / 10)) in
  match _find_thrown_stone shot_data pre_shot_stones post_shot_stones with
  | Some thrown_stone =>
      let other_stones := filter (elsewhere thrown_stone) post_shot_stones in
      if truthy other_stones then
        distances <- map_result (distance_from thrown_stone) other_stones ;;
        closest_idx <- argmin distances ;;
        closest_stone <- index other_stones closest_idx ;;
        let target_x := (stone_x thrown_stone + stone_x closest_stone) / 2 in
        let target_y := (stone_y thrown_stone + stone_y closest_stone) / 2 in
        Ok (mkTarget target_x target_y (8 / 10))
      else fallback
  | None => fallback
  end.

Definition _infer_tap_target : heuristic :=
  fun shot_data pre_shot_stones post_shot_stones =>
  _infer_takeout_target shot_data pre_shot_stones post_shot_stones.

Definition _infer_peel_target : heuristic :=
  fun shot_data pre_shot_stones post_shot_stones =>
  _infer_takeout_target shot_data pre_shot_stones post_shot_stones.

(** [self.shot_type_targets] *)
Definition shot_type_targets : list (string * heuristic) :=
  [ ("Draw", _infer_draw_target);
    ("Guard", _infer_guard_target);
    ("Take-out", _infer_takeout_target);
    ("Hit and Roll", _infer_hit_roll_target);
    ("Freeze", _infer_freeze_target);
    ("Tap", _infer_tap_target);
    ("Peel", _infer_peel_target) ].

(** Dictionary lookup by key *)
Fixpoint lookup {V : Type} (k : string) (d : list (string * V)) : option V :=
  match d with
  | [] => None
  | (k', v) :: rest => if String.eqb k k' then Some v else lookup k rest
  end.

Definition infer_target : heuristic :=
  fun shot_data pre_shot_stones post_shot_stones =>
  match lookup (shot_type shot_data) shot_type_targets with
  | Some infer => infer shot_data pre_shot_stones post_shot_stones
  | None => Ok (mkTarget BUTTON_X BUTTON_Y (3 / 10))
  end.

(** ** Accuracy metric calculator *)

(** [np.arctan2(y, x)]: the angle of the point [(x, y)], in (-PI, PI]. *)
Definition arctan2 (y x : R) : R :=
  if Rltb 0 x then atan (y / x)
  else if Rltb x 0 then
    if Rleb 0 y then atan (y / x) + PI else atan (y / x) - PI
  else if Rltb 0 y then PI / 2
  else if Rltb y 0 then - (PI / 2)
  else 0.

(** [np.degrees] *)
Definition degrees (r : R) : R := r * (180 / PI).

(** [np.arctan2(p['y'], p['x']) if p['x'] != 0 or p['y'] != 0 else 0] *)
Definition angle_of (px py : R) : R :=
  if negb (Reqb px 0) || negb (Reqb py 0) then arctan2 py px else 0.

(** The categorising loop: the first category of the table whose threshold
    the value does not exceed, the preset category when the loop runs out. *)
Fixpoint categorize (table : list (string * threshold)) (value : R)
    (preset : string) : string :=
  match table with
  | [] => preset
  | (category, t) :: rest =>
      if le_threshold value t then category else categorize rest value preset
  end.

(** [c in [...]] on category names *)
Definition str_in (c : string) (l : list string) : bool :=
  existsb (String.eqb c) l.

Definition magnitude_of (distance_category direction_category : string) : string :=
  if str_in distance_category ["on_target"]
     && str_in direction_category ["on_line"; "slight"]
  then "minor"
  else if str_in distance_category ["on_target"; "close"]
          && str_in direction_category ["on_line"; "slight"; "moderate"]
  then "moderate"
  else "major".

Record metrics : Type := mkMetrics {
  target_distance_error : R;
  path_direction_error : R;
  distance_category : string;
  direction_category : string;
  error_magnitude : string
}.

(** The dictionary [calculate_accuracy_metrics] returns, when it returns:
    its two squares can raise, see [call_calculate_accuracy_metrics]. *)
Definition calculate_accuracy_metrics (sid : Z) (target : inferred_target)
    (final_position : stone) : metrics :=
  let target_distance_error :=
    sqrt ((stone_x final_position - target_x target) ^ 2
          + (stone_y final_position - target_y target) ^ 2) in
  let target_angle := angle_of (target_x target) (target_y target) in
  let final_angle := angle_of (stone_x final_position) (stone_y final_position) in
  let path_direction_error := Rabs (degrees (target_angle - final_angle)) in
  let path_direction_error :=
    if Rltb 180 path_direction_error then 360 - path_direction_error
    else path_direction_error in
  let distance_category :=
    categorize DISTANCE_THRESHOLDS target_distance_error "large" in
  let direction_category :=
    categorize DIRECTION_THRESHOLDS path_direction_error "large" in
  let error_magnitude := magnitude_of distance_category direction_category in
  mkMetrics target_distance_error path_direction_error
            distance_category direction_category error_magnitude.

(** The call [calculate_accuracy_metrics(shot_id, target, final_position)]:
    the two squares of the distance error are its first arithmetic and can
    raise; nothing after them does. *)
Definition call_calculate_accuracy_metrics (sid : Z) (target : inferred_target)
    (final_position : stone) : result metrics :=
  dx2 <- square (stone_x final_position - target_x target) ;;
  dy2 <- square (stone_y final_position - target_y target) ;;
  Ok (calculate_accuracy_metrics sid target final_position).

(** ** Per-shot driver *)

(** The tables the driver queries, with the columns its queries touch. *)
Record end_row : Type := mkEnd { end_id : Z; end_game_id : Z }.
Record game_row : Type := mkGame { game_id : Z }.
Record position_row : Type := mkPosition { position_shot_id : Z; position_stone : stone }.

Record database : Type := mkDatabase {
  shots : list shot;
  ends : list end_row;
  games : list game_row;
  stone_positions : list position_row
}.

(** [SELECT s.* .. FROM shots s JOIN ends e ON s.end_id = e.id
     JOIN games g ON e.game_id = g.id WHERE s.id = ?] *)
Definition shot_query (db : database) (sid : Z) : list shot :=
  flat_map (fun s =>
    flat_map (fun e =>
      flat_map (fun g =>
        if (shot_end_id s =? end_id e)%Z && (end_game_id e =? game_id g)%Z
           && (shot_id s =? sid)%Z
        then [s] else [])
      (games db))
    (ends db))
  (shots db).

(** A number handed to a query.  A Python [int], or a number written into
    the text of the query, is an integer to the database.  A [numpy.int64],
    as the fields of a row of a data frame are, is bound as a blob, and no
    integer column equals a blob. *)
Inductive sql_number : Set :=
| PyInt (z : Z)
| NumpyInt64 (z : Z).

(** [column = ?] on an integer column *)
Definition column_eq (column : Z) (p : sql_number) : bool :=
  match p with
  | PyInt z => (column =? z)%Z
  | NumpyInt64 _ => false
  end.

(** [SELECT sp.color, sp.x, sp.y FROM stone_positions sp
     JOIN shots s ON sp.shot_id = s.id WHERE s.end_id = ? AND s.number = ?] *)
Definition prev_shot_query (db : database) (eid number : sql_number)
    : list stone :=
  flat_map (fun sp =>
    flat_map (fun s =>
      if (position_shot_id sp =? shot_id s)%Z
         && column_eq (shot_end_id s) eid && column_eq (shot_number s) number
      then [position_stone sp] else [])
    (shots db))
  (stone_positions db).

(** [SELECT color, x, y FROM stone_positions WHERE shot_id = ?] *)
Definition post_shot_query (db : database) (sid : Z) : list stone :=
  map position_stone
      (filter (fun sp => (position_shot_id sp =? sid)%Z) (stone_positions db)).

(** The stones before the shot, as the driver loads them: the parameters
    of its query are fields of [shot_df.iloc[0]]. *)
Definition pre_shot_stones_of (db : database) (shot_data : shot) : list stone :=
  if (1 <? shot_number shot_data)%Z
  then prev_shot_query db (NumpyInt64 (shot_end_id shot_data))
                          (NumpyInt64 (shot_number shot_data - 1))
  else [].

(** The dictionary [process_shot_accuracy] returns: the metrics, updated
    with the shot, the final position and the target. *)
Record accuracy_record : Type := mkRecord {
  record_metrics : metrics;
  record_shot_id : Z;
  final_position_x : R;
  final_position_y : R;
  record_target_x : R;
  record_target_y : R;
  target_confidence : R
}.

Definition process_shot_accuracy (db : database) (sid : Z)
    : result (option accuracy_record) :=
  match shot_query db sid with
  | [] => Ok None
  | shot_data :: _ =>
      let pre_shot_stones := pre_shot_stones_of db shot_data in
      let post_shot_stones := post_shot_query db sid in
      if negb (truthy post_shot_stones) then Ok None
      else
        target <- infer_target shot_data pre_shot_stones post_shot_stones ;;
        match _find_thrown_stone shot_data pre_shot_stones post_shot_stones with
        | None => Ok None
        | Some thrown_stone =>
            metrics <- call_calculate_accuracy_metrics sid target thrown_stone ;;
            Ok (Some (mkRecord metrics sid
                               (stone_x thrown_stone) (stone_y thrown_stone)
                               (target_x target) (target_y target)
                               (confidence target)))
        end
  end.

(** ** Populating the accuracy table *)

(** A row of [shot_accuracy_metrics], with the columns the insert of
    [populate_enhanced_accuracy_data] names.  The table assigns [id] itself
    and puts no constraint on the other columns, so an insert appends. *)
Record metrics_row : Type := mkRow {
  row_shot_id : Z;
  row_target_distance_error : R;
  row_final_position_x : R;
  row_final_position_y : R;
  row_path_direction_error : R;
  row_distance_category : string;
  row_direction_category : string;
  row_error_magnitude : string
}.

(** [DISTINCT .. ORDER BY]: insertion into an increasing list without
    repetition. *)
Fixpoint insert_id (z : Z) (ids : list Z) : list Z :=
  match ids with
  | [] => [z]
  | h :: t =>
      if (z <? h)%Z then z :: ids
      else if (z =? h)%Z then ids
      else h :: insert_id z t
  end.

(** [SELECT DISTINCT s.id FROM shots s
     JOIN stone_positions sp ON s.id = sp.shot_id
     ORDER BY s.id LIMIT 100] *)
Definition shots_with_positions (db : database) : list Z :=
  firstn 100
    (fold_right insert_id []
       (flat_map (fun s =>
          flat_map (fun sp =>
            if (shot_id s =? position_shot_id sp)%Z then [shot_id s] else [])
          (stone_positions db))
        (shots db))).

(** The values the insert takes from the metrics dictionary. *)
Definition row_of (metrics : accuracy_record) : metrics_row :=
  mkRow (record_shot_id metrics)
        (target_distance_error (record_metrics metrics))
        (final_position_x metrics) (final_position_y metrics)
        (path_direction_error (record_metrics metrics))
        (distance_category (record_metrics metrics))
        (direction_category (record_metrics metrics))
        (error_magnitude (record_metrics metrics)).

(** One turn of the loop, on the table and [processed_count]. *)
Definition populate_step (db : database) (state : list metrics_row * nat)
    (sid : Z) : result (list metrics_row * nat) :=
  metrics <- process_shot_accuracy db sid ;;
  match metrics with
  | Some m => Ok (fst state ++ [row_of m], S (snd state))
  | None => Ok state
  end.

Fixpoint populate_loop (db : database) (shot_ids : list Z)
    (state : list metrics_row * nat) : result (list metrics_row * nat) :=
  match shot_ids with
  | [] => Ok state
  | sid :: rest =>
      state' <- populate_step db state sid ;;
      populate_loop db rest state'
  end.

(** The table after the run, and the [processed_count] it prints. *)
Definition populate_enhanced_accuracy_data (db : database)
    (table : list metrics_row) : result (list metrics_row * nat) :=
  populate_loop db (shots_with_positions db) (table, 0%nat).

(** ** The pipeline's own metric step *)

(** A row of the pipeline's shot query: the columns of [shot] and
    [percent_score]. *)
Record scored_shot : Type := mkScored {
  scored_row : shot;
  percent_score : R
}.

(** The values of the pipeline's insert: those of the processor's insert,
    [outcome_success] and [partial_success_score]. *)
Record pipeline_row : Type := mkPipelineRow {
  pipeline_metrics : metrics_row;
  outcome_success : Z;
  partial_success_score : R
}.

(** The stones before the shot, as the pipeline loads them: end and number
    are written into the text of its query. *)
Definition previous_positions (db : database) (shot_data : shot) : list stone :=
  if (1 <? shot_number shot_data)%Z
  then prev_shot_query db (PyInt (shot_end_id shot_data))
                          (PyInt (shot_number shot_data - 1))
  else [].

(** The body of the loop of [calculate_enhanced_accuracy_metrics] for one
    shot: [Ok None] when the loop continues without a row. *)
Definition pipeline_shot (db : database) (scored : scored_shot)
    : result (option pipeline_row) :=
  let shot_data := scored_row scored in
  let prev_positions := previous_positions db shot_data in
  let curr_positions := post_shot_query db (shot_id shot_data) in
  if negb (truthy curr_positions) then Ok None
  else
    target <- infer_target shot_data prev_positions curr_positions ;;
    match _find_thrown_stone shot_data prev_positions curr_positions with
    | None => Ok None
    | Some thrown_stone =>
        metrics <- call_calculate_accuracy_metrics (shot_id shot_data) target
                                                   thrown_stone ;;
        Ok (Some (mkPipelineRow
                    (mkRow (shot_id shot_data)
                           (target_distance_error metrics)
                           (stone_x thrown_stone) (stone_y thrown_stone)
                           (path_direction_error metrics)
                           (distance_category metrics)
                           (direction_category metrics)
                           (error_magnitude metrics))
                    (if Rltb 75 (percent_score scored) then 1 else 0)
                    (percent_score scored / 100)))
    end.

(** The loop over the rows of the shot query, on the table and
    [processed_count]; a shot whose body raises is skipped. *)
Fixpoint calculate_enhanced_accuracy_metrics (db : database)
    (shots_df : list scored_shot) (state : list pipeline_row * nat)
    : list pipeline_row * nat :=
  match shots_df with
  | [] => state
  | scored :: rest =>
      calculate_enhanced_accuracy_metrics db rest
        match pipeline_shot db scored with
        | Ok (Some row) => (fst state ++ [row], S (snd state))
        | _ => state
        end
  end.

(** ** Exporting the accuracy parameters *)

(** What the body of the [try] of [export_accuracy_parameters] can end in. *)
Inductive attempt (A : Type) : Type :=
| Got (a : A)
| KeyError (key : string)
| TypeError
| QueryError.

Arguments Got {A} a.
Arguments KeyError {A} key.
Arguments TypeError {A}.
Arguments QueryError {A}.

Definition attempt_bind {A B : Type} (m : attempt A) (k : A -> attempt B)
    : attempt B :=
  match m with
  | Got a => k a
  | KeyError key => KeyError key
  | TypeError => TypeError
  | QueryError => QueryError
  end.

(** A value of a result row; a NULL real is [Real None]. *)
Inductive cell : Type :=
| Text (s : string)
| Real (r : option R)
| Int (z : Z).

(** A row of the accuracy query: [s.type], the two averages and
    [COUNT( * )]. *)
Record accuracy_stat : Type := mkStat {
  stat_type : string;
  stat_avg_distance_error : option R;
  stat_avg_direction_error : option R;
  stat_sample_size : Z
}.

(** The row as [iterrows] yields it: a series labelled by the columns of the
    query. *)
Definition series_of (row : accuracy_stat) : list (string * cell) :=
  [ ("type", Text (stat_type row));
    ("avg_distance_error", Real (stat_avg_distance_error row));
    ("avg_direction_error", Real (stat_avg_direction_error row));
    ("sample_size", Int (stat_sample_size row)) ].

(** [row[key]] *)
Definition getitem (row : list (string * cell)) (key : string) : attempt cell :=
  match lookup key row with
  | Some v => Got v
  | None => KeyError key
  end.

(** [pd.notna] *)
Definition notna (v : cell) : bool :=
  match v with
  | Real None => false
  | _ => true
  end.

(** [float(v)] on a value that is not missing *)
Definition to_float (v : cell) : attempt R :=
  match v with
  | Real (Some r) => Got r
  | Int z => Got (IZR z)
  | _ => TypeError
  end.

(** [int(v)] *)
Definition to_int (v : cell) : attempt Z :=
  match v with
  | Int z => Got z
  | _ => TypeError
  end.

(** [float(row[key]) if pd.notna(row[key]) else fallback] *)
Definition float_or (row : list (string * cell)) (key : string) (fallback : R)
    : attempt R :=
  attempt_bind (getitem row key) (fun probe =>
  if notna probe
  then attempt_bind (getitem row key) to_float
  else Got fallback).

Record accuracy_params : Type := mkParams {
  param_mean : R;
  param_std : R;
  param_bias : R
}.

Record type_accuracy : Type := mkTypeAccuracy {
  distance_params : accuracy_params;
  direction_params : accuracy_params;
  sample_size : option Z
}.

(** [d[key] = value] on a dictionary kept in insertion order *)
Fixpoint dict_set {V : Type} (d : list (string * V)) (key : string) (value : V)
    : list (string * V) :=
  match d with
  | [] => [(key, value)]
  | (k, v) :: rest =>
      if String.eqb key k then (k, value) :: rest
      else (k, v) :: dict_set rest key value
  end.

(** The assignment of the loop body: the value first, then the key. *)
Definition export_row (shot_type_accuracy : list (string * type_accuracy))
    (row : list (string * cell)) : attempt (list (string * type_accuracy)) :=
  attempt_bind (float_or row "avg_distance_error" (2 / 10)) (fun distance_mean =>
  attempt_bind (float_or row "std_distance_error" (15 / 100)) (fun distance_std =>
  attempt_bind (float_or row "avg_direction_error" 3) (fun direction_mean =>
  attempt_bind (float_or row "std_direction_error" (25 / 10)) (fun direction_std =>
  attempt_bind (attempt_bind (getitem row "sample_size") to_int) (fun size =>
  attempt_bind (getitem row "type") (fun key =>
  match key with
  | Text ty =>
      Got (dict_set shot_type_accuracy ty
             (mkTypeAccuracy
                (mkParams distance_mean distance_std (2 / 100))
                (mkParams direction_mean direction_std (3 / 10))
                (Some size)))
  | _ => TypeError
  end)))))).

Fixpoint export_rows (shot_type_accuracy : list (string * type_accuracy))
    (rows : list accuracy_stat) : attempt (list (string * type_accuracy)) :=
  match rows with
  | [] => Got shot_type_accuracy
  | row :: rest =>
      attempt_bind (export_row shot_type_accuracy (series_of row))
                   (fun updated => export_rows updated rest)
  end.

(** The values of the [except] branch. *)
Definition default_accuracy : list (string * type_accuracy) :=
  [ ("Draw", mkTypeAccuracy (mkParams (15 / 100) (12 / 100) (2 / 100))
                            (mkParams (28 / 10) (21 / 10) (5 / 10)) None);
    ("Take-out", mkTypeAccuracy (mkParams (23 / 100) (18 / 100) (5 / 100))
                                (mkParams (42 / 10) (35 / 10) (2 / 10)) None);
    ("Guard", mkTypeAccuracy (mkParams (18 / 100) (15 / 100) (- (3 / 100)))
                             (mkParams (32 / 10) (24 / 10) (3 / 10)) None) ].

(** The dictionary [export_accuracy_parameters] returns, given what the
    accuracy query answers ([QueryError] when it raises). *)
Definition export_accuracy_parameters (answer : attempt (list accuracy_stat))
    : list (string * type_accuracy) :=
  match attempt_bind answer (export_rows []) with
  | Got shot_type_accuracy => shot_type_accuracy
  | _ => default_accuracy
  end.

(** ** Generated dataset rows *)

(** [max(a, b)] and [min(a, b)]: the first argument unless the second is
    strictly beyond it. *)
Definition py_max (a b : R) : R := if Rltb a b then b else a.
Definition py_min (a b : R) : R := if Rltb b a then b else a.

(** The values [generate_large_dataset] stores in [shot_accuracy_metrics]
    for a shot, besides its identifier and final position. *)
Record generated_metrics : Type := mkGenerated {
  generated_distance_error : R;
  generated_direction_error : R;
  generated_distance_category : string;
  generated_direction_category : string;
  generated_error_magnitude : string;
  generated_outcome_success : Z;
  generated_partial_success_score : R
}.

(** The clamping and labelling of the loop body of [generate_large_dataset],
    on the values it has drawn: the distance and direction errors, the
    success flag and the score. *)
Definition generate_metrics (target_distance_error direction_error : R)
    (is_successful : bool) (score : Z) : generated_metrics :=
  let target_distance_error := py_max 0 (py_min 3 target_distance_error) in
  let direction_error := py_max (-25) (py_min 25 (Rabs direction_error)) in
  mkGenerated
    target_distance_error direction_error
    (if Rltb target_distance_error (2 / 10) then "on_target"
     else if Rltb target_distance_error (5 / 10) then "short" else "long")
    (if Rltb (Rabs direction_error) 3 then "on_line"
     else if Rltb direction_error 0 then "left" else "right")
    (if Rltb target_distance_error (3 / 10) then "minor"
     else if Rltb target_distance_error (8 / 10) then "moderate" else "major")
    (if is_successful then 1 else 0)
    (IZR score / 100).

(** ** Success modifiers *)

(** Rows of the three data frames [calculate_success_modifiers] reads. *)
Record shot_type_row : Type := mkShotTypeRow {
  type_name : string;
  type_total_shots : Z;
  type_avg_success : R
}.

Record situational_row : Type := mkSituationalRow {
  situational_shot_phase : string;
  situational_avg_success : R
}.

Record pressure_row : Type := mkPressureRow {
  pressure_end_number : Z;
  pressure_situation : string;
  pressure_avg_success : R
}.

(** [Series.mean()]: [None] stands for the NaN of an empty selection. *)
Definition mean (values : list R) : option R :=
  match values with
  | [] => None
  | _ :: _ => Some (fold_right Rplus 0 values / INR (List.length values))
  end.

(** [d[key] = a / b] when neither mean is NaN *)
Definition set_ratio (d : list (string * R)) (key : string) (a b : option R)
    : list (string * R) :=
  match b, a with
  | Some bv, Some av => dict_set d key (av / bv)
  | _, _ => d
  end.

Record success_modifiers : Type := mkModifiers {
  base_success_rates : list (string * R);
  situational_modifiers : list (string * R);
  phase_modifiers : list (string * R);
  sample_sizes_shot_types : list (string * Z);
  total_shots_analyzed : Z
}.

Definition calculate_success_modifiers (shot_types_df : list shot_type_row)
    (situational_df : list situational_row) (pressure_df : list pressure_row)
    : success_modifiers :=
  let base_success_rates :=
    fold_left (fun d row => dict_set d (type_name row) (type_avg_success row / 100))
              shot_types_df [] in
  let mean_where (keep : pressure_row -> bool) :=
    mean (map pressure_avg_success (filter keep pressure_df)) in
  let baseline_success :=
    mean_where (fun row => String.eqb (pressure_situation row) "early_setup") in
  let hammer_pressure :=
    mean_where (fun row => String.eqb (pressure_situation row) "hammer_pressure") in
  let steal_pressure :=
    mean_where (fun row => String.eqb (pressure_situation row) "steal_pressure") in
  let situational_modifiers :=
    set_ratio [] "HAMMER_PRESSURE" hammer_pressure baseline_success in
  let situational_modifiers :=
    set_ratio situational_modifiers "STEAL_PRESSURE" steal_pressure
              baseline_success in
  let early_ends := mean_where (fun row => (pressure_end_number row <=? 3)%Z) in
  let late_ends := mean_where (fun row => (8 <=? pressure_end_number row)%Z) in
  let situational_modifiers :=
    set_ratio situational_modifiers "FATIGUE_FACTOR" late_ends early_ends in
  let phase_modifiers :=
    fold_left
      (fun d phase =>
         let phase_data :=
           filter (fun row => String.eqb (situational_shot_phase row) phase)
                  situational_df in
         match mean (map situational_avg_success phase_data) with
         | Some m => dict_set d phase (m / 100)
         | None => d
         end)
      ["early"; "middle"; "late"] [] in
  mkModifiers base_success_rates situational_modifiers phase_modifiers
              (map (fun row => (type_name row, type_total_shots row)) shot_types_df)
              (fold_right Z.add 0%Z (map type_total_shots shot_types_df)).

(** ** Vocabulary of the properties *)

(** The number of stones of a color, as [_find_thrown_stone] counts them. *)
Definition count_of (c : string) (stones : list stone) : nat :=
  List.length (filter (has_color c) stones).

(** The coordinate pairs of the stones of a color. *)
Definition positions_of (c : string) (stones : list stone) : list (R * R) :=
  map xy (filter (has_color c) stones).

(** A stone of color [c] whose exact (x, y) pair no stone of color [c] in
    [pre] has. *)
Definition discriminating (c : string) (pre : list stone) (s : stone) : Prop :=
  stone_color s = c /\ ~ In (xy s) (positions_of c pre).

(** The candidate thrown stones of a shot: the stones of the shooting color
    in the post-snapshot whose position no stone of that color has in the
    pre-snapshot. *)
Definition candidates (shot_data : shot) (pre post : list stone) : list stone :=
  filter (is_new_stone (shot_color shot_data)
                       (positions_of (shot_color shot_data) pre)) post.

(** [v <= t], as a proposition *)
Definition within (v : R) (t : threshold) : Prop :=
  match t with
  | Fin r => v <= r
  | Inf => True
  end.

(** [c] labels the first entry of [table] whose threshold is at least [v]. *)
Definition first_match (table : list (string * threshold)) (v : R) (c : string)
    : Prop :=
  exists before t after,
    table = before ++ (c, t) :: after
    /\ within v t
    /\ forall e, In e before -> ~ within v (snd e).

(** A target with a confidence between 0 and 1, returned without raising. *)
Definition returns_target (r : result inferred_target) : Prop :=
  exists t, r = Ok t /\ 0 <= confidence t <= 1.

(** A magnitude of coordinates far inside the floats: the square of a
    difference of two such coordinates is a finite float. *)
Definition COORD_MAX : R := 10 ^ 153.

(** Both coordinates of the stone are at most [COORD_MAX] in magnitude. *)
Definition in_range (s : stone) : Prop :=
  Rabs (stone_x s) <= COORD_MAX /\ Rabs (stone_y s) <= COORD_MAX.

Definition all_in_range (stones : list stone) : Prop :=
  forall s, In s stones -> in_range s.

(** The Euclidean distance between two stones. *)
Definition distance (a b : stone) : R :=
  sqrt ((stone_x b - stone_x a) ^ 2 + (stone_y b - stone_y a) ^ 2).

(** A target within [COORD_MAX], with a confidence between 0 and 1,
    returned without raising. *)
Definition returns_target_in_range (r : result inferred_target) : Prop :=
  exists t, r = Ok t /\ 0 <= confidence t <= 1
            /\ Rabs (target_x t) <= COORD_MAX /\ Rabs (target_y t) <= COORD_MAX.

(** A target with a confidence between 0 and 1, or an [OverflowError]. *)
Definition returns_or_overflows (r : result inferred_target) : Prop :=
  returns_target r \/ r = Raise OverflowError.

(** What the driver computes from a shot and the two snapshots it has
    loaded, when the post-snapshot is not empty. *)
Definition shot_record (sid : Z) (shot_data : shot) (pre post : list stone)
    : result (option accuracy_record) :=
  target <- infer_target shot_data pre post ;;
  match _find_thrown_stone shot_data pre post with
  | None => Ok None
  | Some thrown_stone =>
      metrics <- call_calculate_accuracy_metrics sid target thrown_stone ;;
      Ok (Some (mkRecord metrics sid
                         (stone_x thrown_stone) (stone_y thrown_stone)
                         (target_x target) (target_y target)
                         (confidence target)))
  end.

(** The row the pipeline inserts for a record. *)
Definition pipeline_row_of (scored : scored_shot) (r : accuracy_record)
    : pipeline_row :=
  mkPipelineRow (row_of r)
                (if Rltb 75 (percent_score scored) then 1 else 0)
                (percent_score scored / 100).

(** An end of three shots: red, yellow, red.  The third shot adds a red
    stone at (0, 1) to the red stone at (1, 1) and the yellow stone at
    (0, 2). *)
Definition three_shots : database :=
  mkDatabase [mkShot 1 1 1 "red" "Draw"; mkShot 2 1 2 "yellow" "Draw";
              mkShot 3 1 3 "red" "Draw"]
             [mkEnd 1 1] [mkGame 1]
             [mkPosition 1 (mkStone "red" 1 1);
              mkPosition 2 (mkStone "red" 1 1);
              mkPosition 2 (mkStone "yellow" 0 2);
              mkPosition 3 (mkStone "red" 1 1);
              mkPosition 3 (mkStone "yellow" 0 2);
              mkPosition 3 (mkStone "red" 0 1)].

(** The first shot of an end, after which two red stones are recorded. *)
Definition two_new_stones : database :=
  mkDatabase [mkShot 1 1 1 "red" "Draw"] [mkEnd 1 1] [mkGame 1]
             [mkPosition 1 (mkStone "red" 1 1); mkPosition 1 (mkStone "red" 2 2)].

(** The position of a category in a threshold table. *)
Fixpoint rank_of (table : list (string * threshold)) (c : string) : nat :=
  match table with
  | [] => 0
  | (category, _) :: rest =>
      if String.eqb c category then 0 else S (rank_of rest c)
  end.

(** The shot is in the shots table and a stone of its color is recorded
    after it. *)
Definition has_thrown_stone (db : database) (sid : Z) : bool :=
  match shot_query db sid with
  | [] => false
  | shot_data :: _ =>
      existsb (has_color (shot_color shot_data)) (post_shot_query db sid)
  end.

(** The rows one run adds for a list of shot identifiers. *)
Definition rows_of (db : database) (shot_ids : list Z) : list metrics_row :=
  flat_map (fun sid =>
              match process_shot_accuracy db sid with
              | Ok (Some m) => [row_of m]
              | _ => []
              end) shot_ids.

(** The database of one shot: the first shot of an end, thrown by red, with
    the stones recorded after it. *)
Definition first_shot_db (ty : string) (post : list stone) : database :=
  mkDatabase [mkShot 1 1 1 "red" ty] [mkEnd 1 1] [mkGame 1]
             (map (mkPosition 1) post).

(** * Properties *)

(** ** Boolean comparisons reflect the order on [R] *)

Lemma Reqb_true_iff (a b : R) : Reqb a b = true <-> a = b.
Proof. unfold Reqb. destruct (Req_dec_T a b); split; congruence. Qed.

Lemma Reqb_refl (a : R) : Reqb a a = true.
Proof. apply Reqb_true_iff. reflexivity. Qed.

Lemma Reqb_neq (a b : R) : a <> b -> Reqb a b = false.
Proof. unfold Reqb. destruct (Req_dec_T a b); congruence. Qed.

Lemma Rleb_true_iff (a b : R) : Rleb a b = true <-> a <= b.
Proof.
  unfold Rleb. destruct (Rle_dec a b); split; intros; try congruence; try lra.
Qed.

Lemma Rleb_false_iff (a b : R) : Rleb a b = false <-> b < a.
Proof.
  unfold Rleb. destruct (Rle_dec a b); split; intros; try congruence; try lra.
Qed.

Lemma Rltb_true_iff (a b : R) : Rltb a b = true <-> a < b.
Proof.
  unfold Rltb. destruct (Rlt_dec a b); split; intros; try congruence; try lra.
Qed.

Lemma Rltb_false_iff (a b : R) : Rltb a b = false <-> b <= a.
Proof.
  unfold Rltb. destruct (Rlt_dec a b); split; intros; try congruence; try lra.
Qed.

(** Settles the comparisons of the goal whose operands are numerals. *)
Ltac decide_R :=
  repeat (simpl;
    match goal with
    | |- context [Reqb ?a ?b] =>
        first [ rewrite (proj2 (Reqb_true_iff a b)) by lra
              | rewrite (Reqb_neq a b) by lra ]
    | |- context [Rleb ?a ?b] =>
        first [ rewrite (proj2 (Rleb_true_iff a b)) by lra
              | rewrite (proj2 (Rleb_false_iff a b)) by lra ]
    | |- context [Rltb ?a ?b] =>
        first [ rewrite (proj2 (Rltb_true_iff a b)) by lra
              | rewrite (proj2 (Rltb_false_iff a b)) by lra ]
    end); simpl.

Lemma xy_eqb_true_iff (p q : R * R) : xy_eqb p q = true <-> p = q.
Proof.
  destruct p as [a b], q as [c d]. unfold xy_eqb. simpl.
  rewrite andb_true_iff, !Reqb_true_iff. split.
  - intros [-> ->]. reflexivity.
  - intros H. inversion H. auto.
Qed.

Lemma xy_in_true_iff (p : R * R) (l : list (R * R)) : xy_in p l = true <-> In p l.
Proof.
  unfold xy_in. rewrite existsb_exists. split.
  - intros [q [Hq He]]. apply xy_eqb_true_iff in He. subst. assumption.
  - intros H. exists p. split; [assumption | apply xy_eqb_true_iff; reflexivity].
Qed.

Lemma xy_in_false_iff (p : R * R) (l : list (R * R)) : xy_in p l = false <-> ~ In p l.
Proof.
  rewrite <- xy_in_true_iff. destruct (xy_in p l); split; intros; congruence.
Qed.

Lemma cxy_eqb_true_iff (p q : string * R * R) : cxy_eqb p q = true <-> p = q.
Proof.
  destruct p as [[c a] b], q as [[c' a'] b']. unfold cxy_eqb. simpl.
  rewrite !andb_true_iff, !Reqb_true_iff, String.eqb_eq. split.
  - intros [[-> ->] ->]. reflexivity.
  - intros H. inversion H. auto.
Qed.

Lemma cxy_in_true_iff (p : string * R * R) (l : list (string * R * R)) :
  cxy_in p l = true <-> In p l.
Proof.
  unfold cxy_in. rewrite existsb_exists. split.
  - intros [q [Hq He]]. apply cxy_eqb_true_iff in He. subst. assumption.
  - intros H. exists p. split; [assumption | apply cxy_eqb_true_iff; reflexivity].
Qed.

Lemma cxy_in_false_iff (p : string * R * R) (l : list (string * R * R)) :
  cxy_in p l = false <-> ~ In p l.
Proof.
  rewrite <- cxy_in_true_iff. destruct (cxy_in p l); split; intros; congruence.
Qed.

(** ** Removed stones *)

(** The appending loop of [_find_removed_stones] is a filter. *)
Lemma removed_loop_filter (keep : stone -> bool) (pre acc : list stone) :
  fold_left (fun removed s => if keep s then removed ++ [s] else removed) pre acc
  = acc ++ filter keep pre.
Proof.
  revert acc. induction pre as [| s pre IH]; intros acc; simpl.
  - rewrite app_nil_r. reflexivity.
  - rewrite IH. destruct (keep s).
    + rewrite <- app_assoc. reflexivity.
    + reflexivity.
Qed.

Lemma find_removed_filter (pre post : list stone) :
  _find_removed_stones pre post
  = filter (fun s => negb (cxy_in (cxy s) (map cxy post))) pre.
Proof. unfold _find_removed_stones. apply removed_loop_filter. Qed.


(** ** Thrown stone *)

(** Early-return search loops: what [find] returns. *)
Lemma find_Some_split {A : Type} (f : A -> bool) (l : list A) (a : A) :
  find f l = Some a <->
  exists l1 l2, l = l1 ++ a :: l2 /\ f a = true /\ forall b, In b l1 -> f b = false.
Proof.
  induction l as [| h t IH]; simpl.
  - split; [discriminate |].
    intros [l1 [l2 [H _]]]. destruct l1; discriminate.
  - destruct (f h) eqn:Eh.
    + split.
      * intros H. inversion H. subst. exists [], t. simpl. tauto.
      * intros [l1 [l2 [H [Ha Hl1]]]]. destruct l1 as [| b l1]; simpl in H.
        -- inversion H. reflexivity.
        -- inversion H. subst. rewrite (Hl1 b) in Eh by (left; reflexivity).
           discriminate.
    + rewrite IH. split.
      * intros [l1 [l2 [H [Ha Hl1]]]]. exists (h :: l1), l2. subst. simpl.
        repeat split; [assumption |]. intros b [<- | Hb]; auto.
      * intros [l1 [l2 [H [Ha Hl1]]]]. destruct l1 as [| b l1]; simpl in H.
        -- inversion H. subst. congruence.
        -- inversion H. subst. exists l1, l2. repeat split; [assumption |].
           intros c Hc. apply Hl1. right. assumption.
Qed.

Lemma find_None_iff {A : Type} (f : A -> bool) (l : list A) :
  find f l = None <-> forall a, In a l -> f a = false.
Proof.
  induction l as [| h t IH]; simpl.
  - split; [intros _ a [] | reflexivity].
  - destruct (f h) eqn:Eh.
    + split; [discriminate |]. intros H. rewrite (H h) in Eh by (left; reflexivity).
      discriminate.
    + rewrite IH. split.
      * intros H a [<- | Ha]; auto.
      * intros H a Ha. apply H. right. assumption.
Qed.

Lemma is_new_stone_true_iff (c : string) (pre : list stone) (s : stone) :
  is_new_stone c (positions_of c pre) s = true <-> discriminating c pre s.
Proof.
  unfold is_new_stone, discriminating, has_color.
  rewrite andb_true_iff, negb_true_iff, String.eqb_eq, xy_in_false_iff. tauto.
Qed.

Lemma is_new_stone_false_iff (c : string) (pre : list stone) (s : stone) :
  is_new_stone c (positions_of c pre) s = false <-> ~ discriminating c pre s.
Proof.
  rewrite <- is_new_stone_true_iff.
  destruct (is_new_stone c (positions_of c pre) s); split; intros; congruence.
Qed.

Lemma find_thrown_unfold (shot_data : shot) (pre post : list stone) :
  _find_thrown_stone shot_data pre post
  = if (count_of (shot_color shot_data) pre <? count_of (shot_color shot_data) post)%nat
    then find (is_new_stone (shot_color shot_data)
                            (positions_of (shot_color shot_data) pre)) post
    else None.
Proof. reflexivity. Qed.

Lemma count_of_insert (c : string) (l1 l2 : list stone) (p : stone) :
  stone_color p = c ->
  count_of c (l1 ++ p :: l2) = S (count_of c (l1 ++ l2)).
Proof.
  intros Hp. unfold count_of. rewrite !filter_app. simpl.
  unfold has_color at 2. rewrite Hp, String.eqb_refl.
  rewrite !length_app. simpl. lia.
Qed.

(** An inserted stone of the shooting color with fresh coordinates is the
    stone [_find_thrown_stone] returns. *)
Lemma find_thrown_insert (shot_data : shot) (l1 l2 : list stone) (p : stone) :
  discriminating (shot_color shot_data) (l1 ++ l2) p ->
  _find_thrown_stone shot_data (l1 ++ l2) (l1 ++ p :: l2) = Some p.
Proof.
  intros Hp. rewrite find_thrown_unfold.
  rewrite (count_of_insert _ l1 l2 p) by apply Hp.
  replace (_ <? _)%nat with true by (symmetry; apply Nat.ltb_lt; lia).
  apply find_Some_split. exists l1, l2. repeat split.
  - apply is_new_stone_true_iff. assumption.
  - intros b Hb. apply is_new_stone_false_iff. intros [Hc Hn]. apply Hn.
    unfold positions_of. apply in_map. apply filter_In. split.
    + apply in_or_app. left. assumption.
    + unfold has_color. rewrite Hc. apply String.eqb_refl.
Qed.

(** C2, as the code has it.  When the count of [post] stones of the shooting
    color exceeds that of [pre], [_find_thrown_stone] returns the first stone
    of [post] of that color whose exact (x, y) pair no [pre] stone of that
    color has; it returns [None] exactly when the count did not grow or no
    such stone exists.  A [post] made from [pre] by inserting one stone of
    the shooting color, at coordinates no [pre] stone of that color has,
    yields exactly the inserted stone. *)
Theorem find_thrown_stone_spec (shot_data : shot) (pre post : list stone) :
  let side := shot_color shot_data in
  (forall s, _find_thrown_stone shot_data pre post = Some s <->
     (count_of side pre < count_of side post)%nat
     /\ exists l1 l2, post = l1 ++ s :: l2
                      /\ discriminating side pre s
                      /\ forall s', In s' l1 -> ~ discriminating side pre s')
  /\ (_find_thrown_stone shot_data pre post = None <->
        (count_of side post <= count_of side pre)%nat
        \/ forall s, In s post -> ~ discriminating side pre s)
  /\ (forall l1 l2 p, pre = l1 ++ l2 -> post = l1 ++ p :: l2 ->
        discriminating side pre p ->
        _find_thrown_stone shot_data pre post = Some p).
Proof.
  intros side. subst side. split; [| split].
  - intros s. rewrite find_thrown_unfold.
    destruct (_ <? _)%nat eqn:Ec;
      [apply Nat.ltb_lt in Ec | apply Nat.ltb_ge in Ec].
    + rewrite find_Some_split. split.
      * intros [l1 [l2 [Hp [Hs Hl]]]]. split; [assumption |].
        exists l1, l2. split; [assumption |]. split.
        -- apply is_new_stone_true_iff. assumption.
        -- intros s' Hs'. apply is_new_stone_false_iff. auto.
      * intros [_ [l1 [l2 [Hp [Hs Hl]]]]]. exists l1, l2.
        split; [assumption |]. split.
        -- apply is_new_stone_true_iff. assumption.
        -- intros b Hb. apply is_new_stone_false_iff. auto.
    + split; [discriminate | intros [Hlt _]; lia].
  - rewrite find_thrown_unfold.
    destruct (_ <? _)%nat eqn:Ec;
      [apply Nat.ltb_lt in Ec | apply Nat.ltb_ge in Ec].
    + rewrite find_None_iff. split.
      * intros Hn. right. intros s Hs. apply is_new_stone_false_iff. auto.
      * intros [Hle | Hn]; [lia |]. intros a Ha.
        apply is_new_stone_false_iff. auto.
    + split; [intros _; left; assumption | reflexivity].
  - intros l1 l2 p -> -> Hp. apply find_thrown_insert. assumption.
Qed.

(** C2, as the sentence has it, fails: inserting a red stone at the
    coordinates of a red stone already there raises the count, and no stone
    of [post] has a new coordinate pair, so nothing is returned. *)
Lemma find_thrown_stone_duplicate_insertion :
  let shot_data := mkShot 2 1 2 "red" "Draw" in
  let pre := [mkStone "red" 0 0] in
  let inserted := mkStone "red" 0 0 in
  let post := pre ++ [inserted] in
  _find_thrown_stone shot_data pre post = None
  /\ _find_thrown_stone shot_data pre post <> Some inserted.
Proof.
  assert (H : _find_thrown_stone (mkShot 2 1 2 "red" "Draw")
                [mkStone "red" 0 0] ([mkStone "red" 0 0] ++ [mkStone "red" 0 0])
              = None).
  { unfold _find_thrown_stone, is_new_stone, xy_in, xy_eqb. decide_R. reflexivity. }
  cbv zeta. split; [exact H | rewrite H; discriminate].
Qed.

(** A red stone thrown to (0.5, 2) between a yellow and a red stone. *)
Lemma find_thrown_stone_spec_witness :
  _find_thrown_stone (mkShot 2 1 2 "red" "Draw")
    ([mkStone "yellow" 1 1] ++ [mkStone "red" 0 0])
    ([mkStone "yellow" 1 1] ++ mkStone "red" (1 / 2) 2 :: [mkStone "red" 0 0])
  = Some (mkStone "red" (1 / 2) 2).
Proof.
  apply (proj2 (proj2 (find_thrown_stone_spec (mkShot 2 1 2 "red" "Draw")
           ([mkStone "yellow" 1 1] ++ [mkStone "red" 0 0])
           ([mkStone "yellow" 1 1] ++ mkStone "red" (1 / 2) 2 :: [mkStone "red" 0 0])))
         [mkStone "yellow" 1 1] [mkStone "red" 0 0] (mkStone "red" (1 / 2) 2)
         eq_refl eq_refl).
  split; [reflexivity |]. simpl.
  intros [H | []]. inversion H. lra.
Defined.

(** ** Categories *)

Lemma le_threshold_true_iff (v : R) (t : threshold) :
  le_threshold v t = true <-> within v t.
Proof.
  destruct t as [r |]; simpl; [apply Rleb_true_iff | tauto].
Qed.

Lemma categorize_first_match (table : list (string * threshold)) (v : R)
    (preset : string) :
  (exists e, In e table /\ within v (snd e)) ->
  first_match table v (categorize table v preset).
Proof.
  induction table as [| [c t] rest IH]; intros [e [Hin He]]; simpl.
  - destruct Hin.
  - destruct (le_threshold v t) eqn:Et.
    + exists [], t, rest. simpl. split; [reflexivity |].
      split; [apply le_threshold_true_iff; assumption | intros ? []].
    + assert (Hnot : ~ within v t).
      { intros Hw. apply le_threshold_true_iff in Hw. congruence. }
      destruct Hin as [<- | Hin]; [contradiction |].
      destruct IH as [before [t' [after [Ht [Hw Hb]]]]]; [exists e; auto |].
      exists ((c, t) :: before), t', after. simpl. rewrite <- Ht.
      split; [reflexivity |]. split; [assumption |].
      intros e' [<- | He']; auto.
Qed.

(** C5.  For every non-negative error the distance category is the label
    of the first entry of (on_target 0.20, close 0.50, moderate 1.00,
    large infinity) whose threshold is at least the error, and the direction
    category is the label of the first such entry of (on_line 3, slight 8,
    moderate 15, large infinity); the infinite last threshold makes an entry
    match for every error.  The categories of the computed metrics are
    obtained this way from its two errors, the first of which is never
    negative. *)
Theorem category_is_first_match :
  (forall v : R, 0 <= v ->
      first_match DISTANCE_THRESHOLDS v (categorize DISTANCE_THRESHOLDS v "large")
      /\ first_match DIRECTION_THRESHOLDS v (categorize DIRECTION_THRESHOLDS v "large"))
  /\ (forall v : R,
        (v <= 20 / 100 -> categorize DISTANCE_THRESHOLDS v "large" = "on_target")
        /\ (20 / 100 < v <= 50 / 100 -> categorize DISTANCE_THRESHOLDS v "large" = "close")
        /\ (50 / 100 < v <= 1 -> categorize DISTANCE_THRESHOLDS v "large" = "moderate")
        /\ (1 < v -> categorize DISTANCE_THRESHOLDS v "large" = "large")
        /\ (v <= 3 -> categorize DIRECTION_THRESHOLDS v "large" = "on_line")
        /\ (3 < v <= 8 -> categorize DIRECTION_THRESHOLDS v "large" = "slight")
        /\ (8 < v <= 15 -> categorize DIRECTION_THRESHOLDS v "large" = "moderate")
        /\ (15 < v -> categorize DIRECTION_THRESHOLDS v "large" = "large"))
  /\ (forall sid target final_position,
        let m := calculate_accuracy_metrics sid target final_position in
        0 <= target_distance_error m
        /\ distance_category m
           = categorize DISTANCE_THRESHOLDS (target_distance_error m) "large"
        /\ direction_category m
           = categorize DIRECTION_THRESHOLDS (path_direction_error m) "large").
Proof.
  split; [| split].
  - intros v _. split; apply categorize_first_match.
    + exists ("large", Inf). simpl. tauto.
    + exists ("large", Inf). simpl. tauto.
  - intros v. unfold DISTANCE_THRESHOLDS, DIRECTION_THRESHOLDS.
    repeat split; intros H; simpl; decide_R; reflexivity.
  - intros sid target final_position. simpl.
    split; [apply sqrt_pos | split; reflexivity].
Qed.

(** An error of 30 cm is close. *)
Lemma category_is_first_match_witness :
  first_match DISTANCE_THRESHOLDS (3 / 10) (categorize DISTANCE_THRESHOLDS (3 / 10) "large")
  /\ categorize DISTANCE_THRESHOLDS (3 / 10) "large" = "close".
Proof.
  split.
  - apply (proj1 category_is_first_match (3 / 10)). lra.
  - apply (proj1 (proj2 category_is_first_match) (3 / 10)). lra.
Defined.

(** ** Composite error magnitude *)

(** C3.  The magnitude of the computed metrics is [magnitude_of] applied to
    its two categories, and to nothing else; [magnitude_of] is minor exactly
    when the distance category is on_target and the direction category is
    on_line or slight, moderate exactly when that fails while the distance
    category is on_target or close and the direction category is on_line,
    slight or moderate, and major otherwise.  This holds for all category
    names, so for the 16 pairs of the two tables. *)
Theorem error_magnitude_rule :
  (forall sid target final_position,
      let m := calculate_accuracy_metrics sid target final_position in
      error_magnitude m = magnitude_of (distance_category m) (direction_category m))
  /\ (forall d r : string,
        let minor := d = "on_target" /\ (r = "on_line" \/ r = "slight") in
        let moderate :=
          (d = "on_target" \/ d = "close")
          /\ (r = "on_line" \/ r = "slight" \/ r = "moderate") in
        (magnitude_of d r = "minor" <-> minor)
        /\ (magnitude_of d r = "moderate" <-> ~ minor /\ moderate)
        /\ (magnitude_of d r = "major" <-> ~ minor /\ ~ moderate))
  /\ map (fun d => map (magnitude_of d) (map fst DIRECTION_THRESHOLDS))
         (map fst DISTANCE_THRESHOLDS)
     = [ ["minor"; "minor"; "moderate"; "major"];
         ["moderate"; "moderate"; "moderate"; "major"];
         ["major"; "major"; "major"; "major"];
         ["major"; "major"; "major"; "major"] ].
Proof.
  split; [| split].
  - reflexivity.
  - intros d r. unfold magnitude_of, str_in. simpl.
    destruct (String.eqb_spec d "on_target"), (String.eqb_spec d "close"),
      (String.eqb_spec r "on_line"), (String.eqb_spec r "slight"),
      (String.eqb_spec r "moderate"); simpl;
      repeat split; intros; subst;
      try discriminate; try tauto; try congruence;
      try (intuition (discriminate || congruence)).
  - reflexivity.
Qed.

(** ** The shot identifier *)

(** C9.  [calculate_accuracy_metrics] does not depend on the shot
    identifier: two identifiers with the same target and final position give
    the same five fields. *)
Theorem metrics_independent_of_shot_id (sid1 sid2 : Z) (target : inferred_target)
    (final_position : stone) :
  let m1 := calculate_accuracy_metrics sid1 target final_position in
  let m2 := calculate_accuracy_metrics sid2 target final_position in
  target_distance_error m1 = target_distance_error m2
  /\ path_direction_error m1 = path_direction_error m2
  /\ distance_category m1 = distance_category m2
  /\ direction_category m1 = direction_category m2
  /\ error_magnitude m1 = error_magnitude m2.
Proof. repeat split. Qed.

(** ** Direction error *)

Lemma atan_nonpos (a : R) : a <= 0 -> atan a <= 0.
Proof.
  intros [Ha | ->]; [| rewrite atan_0; lra].
  pose proof (atan_increasing a 0 Ha) as H. rewrite atan_0 in H. lra.
Qed.

Lemma atan_pos (a : R) : 0 < a -> 0 < atan a.
Proof.
  intros Ha. pose proof (atan_increasing 0 a Ha) as H. rewrite atan_0 in H. lra.
Qed.

Lemma arctan2_bound (y x : R) : - PI < arctan2 y x <= PI.
Proof.
  pose proof PI_RGT_0 as Hpi.
  pose proof (atan_bound (y / x)) as Hat.
  unfold arctan2.
  destruct (Rltb 0 x); [lra |].
  destruct (Rltb x 0) eqn:Ex.
  - apply Rltb_true_iff in Ex.
    assert (Hix : / x < 0) by (apply Rinv_lt_0_compat; assumption).
    destruct (Rleb 0 y) eqn:Ey.
    + apply Rleb_true_iff in Ey.
      assert (H : atan (y / x) <= 0).
      { apply atan_nonpos. unfold Rdiv. nra. }
      lra.
    + apply Rleb_false_iff in Ey.
      assert (H : 0 < atan (y / x)).
      { apply atan_pos. unfold Rdiv. nra. }
      lra.
  - destruct (Rltb 0 y); [lra |].
    destruct (Rltb y 0); lra.
Qed.

Lemma angle_of_bound (px py : R) : - PI < angle_of px py <= PI.
Proof.
  unfold angle_of. destruct (_ || _).
  - apply arctan2_bound.
  - pose proof PI_RGT_0. lra.
Qed.

Lemma degrees_abs_bound (a : R) :
  - (2 * PI) < a < 2 * PI -> 0 <= Rabs (degrees a) < 360.
Proof.
  intros Ha. pose proof PI_RGT_0 as Hpi.
  split; [apply Rabs_pos |].
  unfold degrees.
  assert (Hk : 0 < 180 / PI) by (apply Rdiv_lt_0_compat; lra).
  assert (H360 : 2 * PI * (180 / PI) = 360) by (field; lra).
  set (k := 180 / PI) in *.
  assert (Hhi : a * k < 2 * PI * k) by (apply Rmult_lt_compat_r; lra).
  assert (Hlo : - (2 * PI) * k < a * k) by (apply Rmult_lt_compat_r; lra).
  apply Rabs_def1; lra.
Qed.

(** C4.  The direction error of the computed metrics lies between 0 and
    180.  It is the absolute value of the angle between target and final
    position in degrees, replaced by 360 minus itself when it exceeds 180,
    where the angle of a point is [arctan2] of its y and x, and 0 for the
    origin. *)
Theorem direction_error_bound (sid : Z) (target : inferred_target)
    (final_position : stone) :
  let m := calculate_accuracy_metrics sid target final_position in
  let raw :=
    Rabs (degrees (angle_of (target_x target) (target_y target)
                   - angle_of (stone_x final_position) (stone_y final_position))) in
  0 <= path_direction_error m <= 180
  /\ (raw > 180 -> path_direction_error m = 360 - raw)
  /\ (raw <= 180 -> path_direction_error m = raw)
  /\ (forall px py, px <> 0 \/ py <> 0 -> angle_of px py = arctan2 py px)
  /\ angle_of 0 0 = 0.
Proof.
  intros m raw.
  assert (Hraw : 0 <= raw < 360).
  { apply degrees_abs_bound.
    pose proof (angle_of_bound (target_x target) (target_y target)).
    pose proof (angle_of_bound (stone_x final_position) (stone_y final_position)).
    lra. }
  assert (Hm : path_direction_error m = if Rltb 180 raw then 360 - raw else raw)
    by reflexivity.
  rewrite Hm. clear Hm.
  split; [| split; [| split; [| split]]].
  - destruct (Rltb 180 raw) eqn:E.
    + apply Rltb_true_iff in E. lra.
    + apply Rltb_false_iff in E. lra.
  - intros H. rewrite (proj2 (Rltb_true_iff 180 raw)) by lra. reflexivity.
  - intros H. rewrite (proj2 (Rltb_false_iff 180 raw)) by lra. reflexivity.
  - intros px py H. unfold angle_of.
    destruct (Req_dec_T px 0) as [Hx | Hx], (Req_dec_T py 0) as [Hy | Hy].
    + destruct H; contradiction.
    + rewrite (Reqb_neq py 0 Hy). rewrite orb_true_r. reflexivity.
    + rewrite (Reqb_neq px 0 Hx). reflexivity.
    + rewrite (Reqb_neq px 0 Hx). reflexivity.
  - unfold angle_of. rewrite Reqb_refl. reflexivity.
Qed.

(** A target on the negative x axis and a final position on the negative y
    axis are 270 degrees apart before the wrap. *)
Lemma three_quarter_turn :
  Rabs (degrees (angle_of (-1) 0 - angle_of 0 (-1))) = 270.
Proof.
  pose proof PI_RGT_0 as Hpi.
  unfold angle_of, arctan2. decide_R.
  replace (0 / -1) with 0 by lra. rewrite atan_0. unfold degrees.
  replace ((0 + PI - - (PI / 2)) * (180 / PI)) with 270 by (field; lra).
  apply Rabs_right. lra.
Qed.

(** Three quarters of a turn wrap to 90 degrees. *)
Lemma direction_error_bound_witness :
  path_direction_error
    (calculate_accuracy_metrics 1 (mkTarget (-1) 0 (7 / 10)) (mkStone "red" 0 (-1)))
  = 90.
Proof.
  pose proof (proj1 (proj2 (direction_error_bound 1 (mkTarget (-1) 0 (7 / 10))
                              (mkStone "red" 0 (-1))))) as H.
  cbv zeta in H.
  cbv beta iota delta [target_x target_y stone_x stone_y] in H.
  rewrite three_quarter_turn in H. rewrite H; lra.
Defined.

(** The scenario of a draw 15 cm off the button along the x axis. *)
Example metrics_on_target :
  calculate_accuracy_metrics 1 (mkTarget 0 0 (2 / 10)) (mkStone "red" (15 / 100) 0)
  = mkMetrics (15 / 100) 0 "on_target" "on_line" "minor".
Proof.
  assert (Hd : sqrt ((15 / 100 - 0) ^ 2 + (0 - 0) ^ 2) = 15 / 100)
    by (apply sqrt_lem_1; lra).
  assert (Ha : Rabs (degrees (angle_of 0 0 - angle_of (15 / 100) 0)) = 0).
  { unfold angle_of, arctan2. decide_R.
    replace (0 / (15 / 100)) with 0 by lra. rewrite atan_0.
    unfold degrees. rewrite Rminus_diag, Rmult_0_l, Rabs_R0. reflexivity. }
  unfold calculate_accuracy_metrics.
  cbv beta iota zeta delta [target_x target_y stone_x stone_y].
  rewrite Hd, Ha.
  unfold magnitude_of, DISTANCE_THRESHOLDS, DIRECTION_THRESHOLDS. decide_R.
  reflexivity.
Qed.

(** The scenario of a stone 1.2 m off the button: a large distance error
    makes the magnitude major. *)
Example metrics_large :
  let m := calculate_accuracy_metrics 1 (mkTarget 0 0 (2 / 10))
                                      (mkStone "red" (12 / 10) 0) in
  target_distance_error m = 12 / 10
  /\ distance_category m = "large"
  /\ error_magnitude m = "major".
Proof.
  assert (Hd : sqrt ((12 / 10 - 0) ^ 2 + (0 - 0) ^ 2) = 12 / 10)
    by (apply sqrt_lem_1; lra).
  cbv zeta. unfold calculate_accuracy_metrics.
  cbv beta iota zeta delta [target_x target_y stone_x stone_y
    target_distance_error distance_category error_magnitude].
  rewrite Hd. unfold magnitude_of, DISTANCE_THRESHOLDS. decide_R. repeat split.
Qed.

(** ** Float range *)

Lemma float_max_large : 4 * COORD_MAX ^ 2 <= FLOAT_MAX.
Proof.
  unfold FLOAT_MAX, COORD_MAX.
  rewrite !pow_IZR, <- minus_IZR, <- mult_IZR.
  apply IZR_le. vm_compute. discriminate.
Qed.

Lemma coord_max_large : 10 <= COORD_MAX.
Proof.
  unfold COORD_MAX. rewrite pow_IZR. apply IZR_le. vm_compute. discriminate.
Qed.

Lemma small_in_range (v : R) : Rabs v <= 10 -> Rabs v <= COORD_MAX.
Proof. pose proof coord_max_large. lra. Qed.

Lemma diff_in_range (a b : R) :
  Rabs a <= COORD_MAX -> Rabs b <= COORD_MAX -> Rabs (a - b) <= 2 * COORD_MAX.
Proof.
  intros Ha Hb. unfold Rminus.
  eapply Rle_trans; [apply Rabs_triang |]. rewrite Rabs_Ropp. lra.
Qed.

Lemma midpoint_in_range (a b : R) :
  Rabs a <= COORD_MAX -> Rabs b <= COORD_MAX -> Rabs ((a + b) / 2) <= COORD_MAX.
Proof.
  intros Ha Hb. pose proof (Rabs_triang a b) as Ht.
  unfold Rdiv. rewrite Rabs_mult, (Rabs_pos_eq (/ 2)) by lra. lra.
Qed.

(** A square of a difference of coordinates in range is a float. *)
Lemma square_fits (v : R) : Rabs v <= 2 * COORD_MAX -> square v = Ok (v ^ 2).
Proof.
  intros Hv. unfold square.
  assert (H : v ^ 2 <= FLOAT_MAX).
  { rewrite <- pow2_abs.
    apply Rle_trans with ((2 * COORD_MAX) ^ 2).
    - apply pow_incr. split; [apply Rabs_pos | assumption].
    - replace ((2 * COORD_MAX) ^ 2) with (4 * COORD_MAX ^ 2) by ring.
      apply float_max_large. }
  apply Rleb_true_iff in H. rewrite H. reflexivity.
Qed.

Lemma square_outcome (v : R) :
  square v = Ok (v ^ 2) \/ square v = Raise OverflowError.
Proof.
  unfold square.
  destruct (Rleb (v ^ 2) FLOAT_MAX); [left; reflexivity |].
  destruct (Rleb (Rabs v) FLOAT_MAX); [right | left]; reflexivity.
Qed.

(** [(1e200) ** 2] *)
Lemma square_overflows : square (10 ^ 200) = Raise OverflowError.
Proof.
  unfold square.
  assert (H1 : FLOAT_MAX < (10 ^ 200) ^ 2).
  { unfold FLOAT_MAX.
    rewrite !pow_IZR, <- minus_IZR. apply IZR_lt. vm_compute. reflexivity. }
  assert (H2 : Rabs (10 ^ 200) <= FLOAT_MAX).
  { rewrite Rabs_pos_eq by (apply pow_le; lra). unfold FLOAT_MAX.
    rewrite !pow_IZR, <- minus_IZR. apply IZR_le. vm_compute. discriminate. }
  apply Rleb_false_iff in H1. apply Rleb_true_iff in H2.
  rewrite H1, H2. reflexivity.
Qed.

Lemma distance_from_fits (thrown_stone s : stone) :
  in_range thrown_stone -> in_range s ->
  distance_from thrown_stone s = Ok (distance thrown_stone s).
Proof.
  intros [Hx Hy] [Hsx Hsy]. unfold distance_from, distance.
  rewrite !square_fits by (apply diff_in_range; assumption). reflexivity.
Qed.

Lemma distance_from_outcome (thrown_stone s : stone) :
  distance_from thrown_stone s = Ok (distance thrown_stone s)
  \/ distance_from thrown_stone s = Raise OverflowError.
Proof.
  unfold distance_from, distance.
  destruct (square_outcome (stone_x s - stone_x thrown_stone)) as [-> | ->];
    [| right; reflexivity].
  destruct (square_outcome (stone_y s - stone_y thrown_stone)) as [-> | ->];
    [left | right]; reflexivity.
Qed.

Lemma map_result_Ok {A B : Type} (f : A -> result B) (g : A -> B) (l : list A) :
  (forall a, In a l -> f a = Ok (g a)) -> map_result f l = Ok (map g l).
Proof.
  induction l as [| a l IH]; intros H; simpl; [reflexivity |].
  rewrite (H a) by (left; reflexivity).
  rewrite IH by (intros b Hb; apply H; right; assumption).
  reflexivity.
Qed.

Lemma distances_fit (thrown_stone : stone) (stones : list stone) :
  in_range thrown_stone -> all_in_range stones ->
  map_result (distance_from thrown_stone) stones
  = Ok (map (distance thrown_stone) stones).
Proof.
  intros Ht Hs. apply map_result_Ok. intros s Hin.
  apply distance_from_fits; [assumption | apply Hs; assumption].
Qed.

Lemma distances_outcome (thrown_stone : stone) (stones : list stone) :
  map_result (distance_from thrown_stone) stones
  = Ok (map (distance thrown_stone) stones)
  \/ map_result (distance_from thrown_stone) stones = Raise OverflowError.
Proof.
  induction stones as [| s stones IH]; simpl; [left; reflexivity |].
  destruct (distance_from_outcome thrown_stone s) as [-> | ->];
    [| right; reflexivity].
  destruct IH as [-> | ->]; [left | right]; reflexivity.
Qed.

(** ** Nearest stone *)

Lemma argmin_from_spec (l seen : list R) (best_idx : nat) (best : R) :
  nth_error seen best_idx = Some best ->
  (forall d, In d seen -> best <= d) ->
  exists v,
    nth_error (seen ++ l) (argmin_from best_idx best (List.length seen) l) = Some v
    /\ forall d, In d (seen ++ l) -> v <= d.
Proof.
  revert seen best_idx best.
  induction l as [| d rest IH]; intros seen best_idx best Hnth Hmin; simpl.
  - exists best. rewrite app_nil_r. auto.
  - replace (seen ++ d :: rest) with ((seen ++ [d]) ++ rest)
      by (rewrite <- app_assoc; reflexivity).
    replace (S (List.length seen)) with (List.length (seen ++ [d]))
      by (rewrite length_app; simpl; lia).
    destruct (Rltb d best) eqn:E.
    + apply Rltb_true_iff in E. apply IH.
      * rewrite nth_error_app2 by lia. rewrite Nat.sub_diag. reflexivity.
      * intros e He. apply in_app_or in He. destruct He as [He | [<- | []]].
        -- specialize (Hmin e He). lra.
        -- lra.
    + apply Rltb_false_iff in E. apply IH.
      * rewrite nth_error_app1; [assumption |].
        apply nth_error_Some. congruence.
      * intros e He. apply in_app_or in He. destruct He as [He | [<- | []]].
        -- auto.
        -- assumption.
Qed.

Lemma argmin_spec (l : list R) :
  l <> [] ->
  exists i v, argmin l = Ok i /\ nth_error l i = Some v /\ forall d, In d l -> v <= d.
Proof.
  destruct l as [| d rest]; [congruence | intros _].
  destruct (argmin_from_spec rest [d] 0 d) as [v [Hv Hmin]].
  - reflexivity.
  - intros e [<- | []]. lra.
  - exists (argmin_from 0 d 1 rest), v. simpl in *. auto.
Qed.

(** Selecting the stone with the least of the distances does not raise, and
    selects a stone of the list at least as near as every other. *)
Lemma closest_stone_spec (d : stone -> R) (stones : list stone) :
  stones <> [] ->
  exists closest_stone,
    (closest_idx <- argmin (map d stones) ;;
     index stones closest_idx) = Ok closest_stone
    /\ In closest_stone stones
    /\ forall s, In s stones -> d closest_stone <= d s.
Proof.
  intros Hne.
  destruct (argmin_spec (map d stones)) as [i [v [Hi [Hv Hmin]]]].
  - destruct stones; [congruence | discriminate].
  - rewrite nth_error_map in Hv.
    destruct (nth_error stones i) as [c |] eqn:Ec; [| discriminate].
    inversion Hv. subst v. exists c. rewrite Hi. simpl. unfold index. rewrite Ec.
    split; [reflexivity |]. split; [eapply nth_error_In; eassumption |].
    intros s Hs. apply Hmin. apply in_map. assumption.
Qed.

Lemma truthy_true_iff {A : Type} (l : list A) : truthy l = true <-> l <> [].
Proof. destruct l; simpl; split; congruence. Qed.

Lemma truthy_false_iff {A : Type} (l : list A) : truthy l = false <-> l = [].
Proof. destruct l; simpl; split; congruence. Qed.

(** ** Heuristics *)

Lemma returns_target_Ok (tx ty c : R) :
  0 <= c <= 1 -> returns_target (Ok (mkTarget tx ty c)).
Proof. intros H. exists (mkTarget tx ty c). auto. Qed.

Lemma returns_in_range_Ok (tx ty c : R) :
  0 <= c <= 1 -> Rabs tx <= COORD_MAX -> Rabs ty <= COORD_MAX ->
  returns_target_in_range (Ok (mkTarget tx ty c)).
Proof. intros H Hx Hy. exists (mkTarget tx ty c). auto. Qed.

Lemma returns_in_range_button (c : R) :
  0 <= c <= 1 -> returns_target_in_range (Ok (mkTarget BUTTON_X BUTTON_Y c)).
Proof.
  intros H. apply returns_in_range_Ok; [assumption | |];
    apply small_in_range; unfold BUTTON_X, BUTTON_Y; rewrite Rabs_R0; lra.
Qed.

Lemma returns_in_range_returns (r : result inferred_target) :
  returns_target_in_range r -> returns_target r.
Proof. intros [t [Ht [Hc _]]]. exists t. auto. Qed.

Lemma returns_or_overflows_Ok (tx ty c : R) :
  0 <= c <= 1 -> returns_or_overflows (Ok (mkTarget tx ty c)).
Proof. intros H. left. apply returns_target_Ok. assumption. Qed.

Lemma find_thrown_In (shot_data : shot) (pre post : list stone)
    (thrown_stone : stone) :
  _find_thrown_stone shot_data pre post = Some thrown_stone ->
  In thrown_stone post.
Proof.
  rewrite find_thrown_unfold. destruct (_ <? _)%nat; [| discriminate].
  intros H. apply find_some in H. tauto.
Qed.

Lemma find_removed_In (pre post : list stone) (r : stone) :
  In r (_find_removed_stones pre post) -> In r pre.
Proof. rewrite find_removed_filter. intros H. apply filter_In in H. tauto. Qed.

(** The outcomes of the draw heuristic. *)
Lemma draw_cases (shot_data : shot) (pre post : list stone) :
  (_find_thrown_stone shot_data pre post = None ->
   _infer_draw_target shot_data pre post = Ok (mkTarget BUTTON_X BUTTON_Y (2 / 10)))
  /\ (forall thrown_stone,
        _find_thrown_stone shot_data pre post = Some thrown_stone ->
        in_range thrown_stone ->
        _infer_draw_target shot_data pre post
        = if Rleb (sqrt (stone_x thrown_stone ^ 2 + stone_y thrown_stone ^ 2))
                  HOUSE_RADIUS
          then Ok (mkTarget (stone_x thrown_stone) (stone_y thrown_stone) (8 / 10))
          else Ok (mkTarget BUTTON_X BUTTON_Y (6 / 10)))
  /\ (forall thrown_stone,
        _find_thrown_stone shot_data pre post = Some thrown_stone ->
        _infer_draw_target shot_data pre post
        = (if Rleb (sqrt (stone_x thrown_stone ^ 2 + stone_y thrown_stone ^ 2))
                   HOUSE_RADIUS
           then Ok (mkTarget (stone_x thrown_stone) (stone_y thrown_stone) (8 / 10))
           else Ok (mkTarget BUTTON_X BUTTON_Y (6 / 10)))
        \/ _infer_draw_target shot_data pre post = Raise OverflowError).
Proof.
  unfold _infer_draw_target. split; [| split].
  - intros ->. reflexivity.
  - intros th -> [Hx Hy]. cbv zeta.
    assert (H2 : forall v, Rabs v <= COORD_MAX -> Rabs v <= 2 * COORD_MAX).
    { intros v Hv. pose proof coord_max_large. lra. }
    rewrite !square_fits by (apply H2; assumption). reflexivity.
  - intros th ->. cbv zeta.
    destruct (square_outcome (stone_x th)) as [-> | ->]; [| right; reflexivity].
    destruct (square_outcome (stone_y th)) as [-> | ->]; [left | right];
      reflexivity.
Qed.

Lemma draw_in_range (shot_data : shot) (pre post : list stone) :
  all_in_range post ->
  returns_target_in_range (_infer_draw_target shot_data pre post).
Proof.
  intros Hpost. destruct (draw_cases shot_data pre post) as [Hn [Hs _]].
  destruct (_find_thrown_stone shot_data pre post) as [th |] eqn:Et.
  - assert (Hth : in_range th) by (apply Hpost; eapply find_thrown_In; eassumption).
    rewrite (Hs th eq_refl Hth). destruct Hth as [Hx Hy].
    destruct (Rleb _ _).
    + apply returns_in_range_Ok; [lra | assumption | assumption].
    + apply returns_in_range_button. lra.
  - rewrite (Hn eq_refl). apply returns_in_range_button. lra.
Qed.

Lemma draw_outcome (shot_data : shot) (pre post : list stone) :
  returns_or_overflows (_infer_draw_target shot_data pre post).
Proof.
  destruct (draw_cases shot_data pre post) as [Hn [_ Hs]].
  destruct (_find_thrown_stone shot_data pre post) as [th |] eqn:Et.
  - destruct (Hs th eq_refl) as [-> | ->]; [| right; reflexivity].
    destruct (Rleb _ _); apply returns_or_overflows_Ok; lra.
  - rewrite (Hn eq_refl). apply returns_or_overflows_Ok. lra.
Qed.

Lemma guard_returns (shot_data : shot) (pre post : list stone) :
  returns_target (_infer_guard_target shot_data pre post).
Proof.
  unfold _infer_guard_target.
  destruct (_find_thrown_stone shot_data pre post) as [th |];
    [destruct (_ && _) |]; apply returns_target_Ok; lra.
Qed.

Lemma guard_in_range (shot_data : shot) (pre post : list stone) :
  all_in_range post ->
  returns_target_in_range (_infer_guard_target shot_data pre post).
Proof.
  intros Hpost. unfold _infer_guard_target.
  assert (H0 : Rabs 0 <= COORD_MAX)
    by (apply small_in_range; rewrite Rabs_R0; lra).
  assert (H35 : Rabs (35 / 10) <= COORD_MAX)
    by (apply small_in_range; rewrite Rabs_pos_eq; lra).
  destruct (_find_thrown_stone shot_data pre post) as [th |] eqn:Et.
  - assert (Hth : in_range th) by (apply Hpost; eapply find_thrown_In; eassumption).
    destruct Hth as [Hx Hy].
    destruct (_ && _); apply returns_in_range_Ok; first [lra | assumption].
  - apply returns_in_range_Ok; first [lra | assumption].
Qed.

(** The outcomes of the take-out heuristic. *)
Lemma takeout_cases (shot_data : shot) (pre post : list stone) :
  let removed_stones := _find_removed_stones pre post in
  let thrown := _find_thrown_stone shot_data pre post in
  let opponent_stones :=
    filter (has_color (opponent_of (shot_color shot_data))) pre in
  (forall r rest, removed_stones = r :: rest ->
     _infer_takeout_target shot_data pre post
     = Ok (mkTarget (stone_x r) (stone_y r) (9 / 10)))
  /\ (forall thrown_stone,
        removed_stones = [] -> thrown = Some thrown_stone -> opponent_stones <> [] ->
        in_range thrown_stone -> all_in_range opponent_stones ->
        exists closest_stone,
          In closest_stone opponent_stones
          /\ (forall s, In s opponent_stones ->
                distance thrown_stone closest_stone <= distance thrown_stone s)
          /\ _infer_takeout_target shot_data pre post
             = Ok (mkTarget (stone_x closest_stone) (stone_y closest_stone) (7 / 10)))
  /\ (forall thrown_stone,
        removed_stones = [] -> thrown = Some thrown_stone -> opponent_stones <> [] ->
        (exists closest_stone,
           In closest_stone opponent_stones
           /\ _infer_takeout_target shot_data pre post
              = Ok (mkTarget (stone_x closest_stone) (stone_y closest_stone)
                             (7 / 10)))
        \/ _infer_takeout_target shot_data pre post = Raise OverflowError)
  /\ (removed_stones = [] -> thrown = None \/ opponent_stones = [] ->
      _infer_takeout_target shot_data pre post
      = Ok (mkTarget BUTTON_X BUTTON_Y (3 / 10))).
Proof.
  intros removed_stones thrown opponent_stones.
  unfold _infer_takeout_target.
  fold removed_stones. fold thrown. fold opponent_stones.
  split; [| split; [| split]].
  - intros r rest ->. reflexivity.
  - intros th -> -> Hne Hth Hopp. simpl.
    rewrite (proj2 (truthy_true_iff opponent_stones) Hne).
    rewrite (distances_fit th opponent_stones Hth Hopp).
    destruct (closest_stone_spec (distance th) opponent_stones Hne)
      as [c [Hc [Hin Hmin]]].
    exists c. split; [assumption |]. split; [assumption |].
    cbv beta iota delta [bind] in Hc |- *.
    destruct (argmin (map (distance th) opponent_stones)); [| discriminate Hc].
    rewrite Hc. reflexivity.
  - intros th -> -> Hne. simpl.
    rewrite (proj2 (truthy_true_iff opponent_stones) Hne).
    destruct (distances_outcome th opponent_stones) as [-> | ->];
      [left | right; reflexivity].
    destruct (closest_stone_spec (distance th) opponent_stones Hne)
      as [c [Hc [Hin _]]].
    exists c. split; [assumption |].
    cbv beta iota delta [bind] in Hc |- *.
    destruct (argmin (map (distance th) opponent_stones)); [| discriminate Hc].
    rewrite Hc. reflexivity.
  - intros -> [-> | Ho]; simpl; [reflexivity |].
    destruct thrown; [| reflexivity].
    rewrite Ho. reflexivity.
Qed.

Lemma takeout_in_range (shot_data : shot) (pre post : list stone) :
  all_in_range pre -> all_in_range post ->
  returns_target_in_range (_infer_takeout_target shot_data pre post).
Proof.
  intros Hpre Hpost.
  destruct (takeout_cases shot_data pre post) as [Hr [Hn [_ Hf]]].
  destruct (_find_removed_stones pre post) as [| r rest] eqn:Er.
  - destruct (_find_thrown_stone shot_data pre post) as [th |] eqn:Et.
    + destruct (filter (has_color (opponent_of (shot_color shot_data))) pre)
        as [| o os] eqn:Eo.
      * rewrite Hf by auto. apply returns_in_range_button. lra.
      * destruct (Hn th eq_refl eq_refl) as [c [Hin [_ Hc]]].
        -- discriminate.
        -- apply Hpost. eapply find_thrown_In. eassumption.
        -- intros s Hs. apply Hpre. rewrite <- Eo in Hs.
           apply filter_In in Hs. tauto.
        -- rewrite Hc. rewrite <- Eo in Hin. apply filter_In in Hin.
           destruct (Hpre c (proj1 Hin)) as [Hx Hy].
           apply returns_in_range_Ok; [lra | assumption | assumption].
    + rewrite Hf by auto. apply returns_in_range_button. lra.
  - rewrite (Hr r rest eq_refl).
    assert (Hin : In r pre).
    { apply (find_removed_In pre post). rewrite Er. left. reflexivity. }
    destruct (Hpre r Hin) as [Hx Hy].
    apply returns_in_range_Ok; [lra | assumption | assumption].
Qed.

Lemma takeout_outcome (shot_data : shot) (pre post : list stone) :
  returns_or_overflows (_infer_takeout_target shot_data pre post).
Proof.
  destruct (takeout_cases shot_data pre post) as [Hr [_ [Hn Hf]]].
  destruct (_find_removed_stones pre post) as [| r rest] eqn:Er.
  - destruct (_find_thrown_stone shot_data pre post) as [th |] eqn:Et.
    + destruct (filter (has_color (opponent_of (shot_color shot_data))) pre)
        as [| o os] eqn:Eo.
      * rewrite Hf by auto. apply returns_or_overflows_Ok. lra.
      * destruct (Hn th eq_refl eq_refl) as [[c [_ Hc]] | Hc]; [discriminate | |].
        -- rewrite Hc. apply returns_or_overflows_Ok. lra.
        -- right. assumption.
    + rewrite Hf by auto. apply returns_or_overflows_Ok. lra.
  - rewrite (Hr r rest eq_refl). apply returns_or_overflows_Ok. lra.
Qed.

Lemma hit_roll_returns (shot_data : shot) (pre post : list stone) :
  returns_target (_infer_hit_roll_target shot_data pre post).
Proof.
  unfold _infer_hit_roll_target.
  destruct (_find_thrown_stone shot_data pre post) as [th |];
    apply returns_target_Ok; lra.
Qed.

Lemma hit_roll_in_range (shot_data : shot) (pre post : list stone) :
  all_in_range post ->
  returns_target_in_range (_infer_hit_roll_target shot_data pre post).
Proof.
  intros Hpost. unfold _infer_hit_roll_target.
  destruct (_find_thrown_stone shot_data pre post) as [th |] eqn:Et.
  - destruct (Hpost th (find_thrown_In _ _ _ _ Et)) as [Hx Hy].
    apply returns_in_range_Ok; [lra | assumption | assumption].
  - apply returns_in_range_button. lra.
Qed.

(** The outcomes of the freeze heuristic. *)
Lemma freeze_cases (shot_data : shot) (pre post : list stone) :
  let thrown := _find_thrown_stone shot_data pre post in
  (forall thrown_stone,
      thrown = Some thrown_stone ->
      filter (elsewhere thrown_stone) post <> [] ->
      in_range thrown_stone -> all_in_range post ->
      exists closest_stone,
        In closest_stone (filter (elsewhere thrown_stone) post)
        /\ (forall s, In s (filter (elsewhere thrown_stone) post) ->
              distance thrown_stone closest_stone <= distance thrown_stone s)
        /\ _infer_freeze_target shot_data pre post
           = Ok (mkTarget ((stone_x thrown_stone + stone_x closest_stone) / 2)
                          ((stone_y thrown_stone + stone_y closest_stone) / 2)
                          (8 / 10)))
  /\ (forall thrown_stone,
        thrown = Some thrown_stone ->
        filter (elsewhere thrown_stone) post <> [] ->
        (exists closest_stone,
           In closest_stone (filter (elsewhere thrown_stone) post)
           /\ _infer_freeze_target shot_data pre post
              = Ok (mkTarget ((stone_x thrown_stone + stone_x closest_stone) / 2)
                             ((stone_y thrown_stone + stone_y closest_stone) / 2)
                             (8 / 10)))
        \/ _infer_freeze_target shot_data pre post = Raise OverflowError)
  /\ ((thrown = None
       \/ exists thrown_stone,
            thrown = Some thrown_stone
            /\ filter (elsewhere thrown_stone) post = []) ->
      _infer_freeze_target shot_data pre post
      = Ok (mkTarget BUTTON_X BUTTON_Y (4 / 10))).
Proof.
  intros thrown. unfold _infer_freeze_target. fold thrown.
  split; [| split].
  - intros th -> Hne Hth Hpost. cbv zeta.
    rewrite (proj2 (truthy_true_iff _) Hne).
    assert (Hothers : all_in_range (filter (elsewhere th) post)).
    { intros s Hs. apply Hpost. apply filter_In in Hs. tauto. }
    rewrite (distances_fit th _ Hth Hothers).
    destruct (closest_stone_spec (distance th) _ Hne) as [c [Hc [Hin Hmin]]].
    exists c. split; [assumption |]. split; [assumption |].
    cbv beta iota delta [bind] in Hc |- *.
    destruct (argmin (map (distance th) (filter (elsewhere th) post)));
      [| discriminate Hc].
    rewrite Hc. reflexivity.
  - intros th -> Hne. cbv zeta.
    rewrite (proj2 (truthy_true_iff _) Hne).
    destruct (distances_outcome th (filter (elsewhere th) post)) as [-> | ->];
      [left | right; reflexivity].
    destruct (closest_stone_spec (distance th) _ Hne) as [c [Hc [Hin _]]].
    exists c. split; [assumption |].
    cbv beta iota delta [bind] in Hc |- *.
    destruct (argmin (map (distance th) (filter (elsewhere th) post)));
      [| discriminate Hc].
    rewrite Hc. reflexivity.
  - intros [-> | [th [-> He]]]; cbv zeta; [reflexivity |].
    rewrite He. reflexivity.
Qed.

Lemma freeze_in_range (shot_data : shot) (pre post : list stone) :
  all_in_range post ->
  returns_target_in_range (_infer_freeze_target shot_data pre post).
Proof.
  intros Hpost.
  destruct (freeze_cases shot_data pre post) as [Hs [_ Hf]].
  destruct (_find_thrown_stone shot_data pre post) as [th |] eqn:Et.
  - assert (Hth : in_range th) by (apply Hpost; eapply find_thrown_In; eassumption).
    destruct (filter (elsewhere th) post) as [| o os] eqn:Eo.
    + rewrite Hf by (right; exists th; auto).
      apply returns_in_range_button. lra.
    + destruct (Hs th eq_refl) as [c [Hin [_ Hc]]];
        [rewrite Eo; discriminate | assumption | assumption |].
      rewrite Hc. apply filter_In in Hin.
      destruct (Hpost c (proj1 Hin)) as [Hx Hy]. destruct Hth as [Htx Hty].
      apply returns_in_range_Ok;
        [lra | apply midpoint_in_range; assumption
             | apply midpoint_in_range; assumption].
  - rewrite Hf by (left; reflexivity). apply returns_in_range_button. lra.
Qed.

Lemma freeze_outcome (shot_data : shot) (pre post : list stone) :
  returns_or_overflows (_infer_freeze_target shot_data pre post).
Proof.
  destruct (freeze_cases shot_data pre post) as [_ [Hs Hf]].
  destruct (_find_thrown_stone shot_data pre post) as [th |] eqn:Et.
  - destruct (filter (elsewhere th) post) as [| o os] eqn:Eo.
    + rewrite Hf by (right; exists th; auto).
      apply returns_or_overflows_Ok. lra.
    + destruct (Hs th eq_refl) as [[c [_ Hc]] | Hc];
        [rewrite Eo; discriminate | |].
      * rewrite Hc. apply returns_or_overflows_Ok. lra.
      * right. assumption.
  - rewrite Hf by (left; reflexivity). apply returns_or_overflows_Ok. lra.
Qed.

(** The dispatch of [infer_target], key by key. *)
Lemma infer_target_dispatch (shot_data : shot) (pre post : list stone) :
  let ty := shot_type shot_data in
  (ty = "Draw" -> infer_target shot_data pre post = _infer_draw_target shot_data pre post)
  /\ (ty = "Guard" -> infer_target shot_data pre post = _infer_guard_target shot_data pre post)
  /\ (ty = "Take-out" \/ ty = "Tap" \/ ty = "Peel" ->
      infer_target shot_data pre post = _infer_takeout_target shot_data pre post)
  /\ (ty = "Hit and Roll" ->
      infer_target shot_data pre post = _infer_hit_roll_target shot_data pre post)
  /\ (ty = "Freeze" -> infer_target shot_data pre post = _infer_freeze_target shot_data pre post)
  /\ (~ In ty (map fst shot_type_targets) ->
      infer_target shot_data pre post = Ok (mkTarget BUTTON_X BUTTON_Y (3 / 10))).
Proof.
  intros ty. subst ty. unfold infer_target.
  repeat split.
  - intros ->. reflexivity.
  - intros ->. reflexivity.
  - intros [-> | [-> | ->]]; reflexivity.
  - intros ->. reflexivity.
  - intros ->. reflexivity.
  - intros Hno. simpl in Hno. simpl.
    repeat match goal with
    | |- context [String.eqb ?a ?b] =>
        destruct (String.eqb_spec a b) as [e | _];
          [exfalso; apply Hno; symmetry in e; tauto |]
    end.
    reflexivity.
Qed.

(** Every entry of the dispatch table, with coordinates in range. *)
Lemma heuristics_in_range (shot_data : shot) (pre post : list stone)
    (key : string) (infer : heuristic) :
  In (key, infer) shot_type_targets ->
  all_in_range pre -> all_in_range post ->
  returns_target_in_range (infer shot_data pre post).
Proof.
  intros Hin Hpre Hpost. simpl in Hin.
  repeat (destruct Hin as [Hin | Hin]; [inversion Hin; subst infer |]);
    try contradiction.
  - apply draw_in_range. assumption.
  - apply guard_in_range. assumption.
  - apply takeout_in_range; assumption.
  - apply hit_roll_in_range. assumption.
  - apply freeze_in_range. assumption.
  - apply takeout_in_range; assumption.
  - apply takeout_in_range; assumption.
Qed.

Lemma infer_target_in_range (shot_data : shot) (pre post : list stone) :
  all_in_range pre -> all_in_range post ->
  returns_target_in_range (infer_target shot_data pre post).
Proof.
  intros Hpre Hpost. unfold infer_target. simpl.
  repeat match goal with
  | |- context [String.eqb ?a ?b] => destruct (String.eqb a b)
  end;
  first [ apply draw_in_range; assumption | apply guard_in_range; assumption
        | apply takeout_in_range; assumption
        | apply hit_roll_in_range; assumption
        | apply freeze_in_range; assumption
        | apply returns_in_range_button; lra ].
Qed.

Lemma infer_target_outcome_cases (shot_data : shot) (pre post : list stone) :
  returns_or_overflows (infer_target shot_data pre post).
Proof.
  unfold infer_target. simpl.
  repeat match goal with
  | |- context [String.eqb ?a ?b] => destruct (String.eqb a b)
  end;
  first [ apply draw_outcome | left; apply guard_returns | apply takeout_outcome
        | left; apply hit_roll_returns | apply freeze_outcome
        | apply returns_or_overflows_Ok; lra ].
Qed.

(** Without a thrown stone no heuristic takes a square. *)
Lemma infer_target_without_thrown (shot_data : shot) (pre post : list stone) :
  _find_thrown_stone shot_data pre post = None ->
  returns_target (infer_target shot_data pre post).
Proof.
  intros Hnone.
  assert (Hd : returns_target (_infer_draw_target shot_data pre post)).
  { rewrite (proj1 (draw_cases shot_data pre post) Hnone).
    apply returns_target_Ok. lra. }
  assert (Ht : returns_target (_infer_takeout_target shot_data pre post)).
  { destruct (takeout_cases shot_data pre post) as [Hr [_ [_ Hf]]].
    destruct (_find_removed_stones pre post) as [| r rest] eqn:Er.
    - rewrite Hf by auto. apply returns_target_Ok. lra.
    - rewrite (Hr r rest eq_refl). apply returns_target_Ok. lra. }
  assert (Hz : returns_target (_infer_freeze_target shot_data pre post)).
  { rewrite (proj2 (proj2 (freeze_cases shot_data pre post))) by auto.
    apply returns_target_Ok. lra. }
  unfold infer_target. simpl.
  repeat match goal with
  | |- context [String.eqb ?a ?b] => destruct (String.eqb a b)
  end;
  first [ assumption | apply guard_returns | apply hit_roll_returns
        | apply returns_target_Ok; lra ].
Qed.

(** The draw heuristic on a thrown stone at x = 1e200. *)
Lemma draw_overflow (shot_data : shot) (pre post : list stone) (y : R) :
  shot_type shot_data = "Draw" ->
  _find_thrown_stone shot_data pre post
  = Some (mkStone (shot_color shot_data) (10 ^ 200) y) ->
  infer_target shot_data pre post = Raise OverflowError.
Proof.
  intros Hty Hth.
  rewrite (proj1 (infer_target_dispatch shot_data pre post) Hty).
  unfold _infer_draw_target. rewrite Hth.
  cbv beta iota zeta delta [stone_x]. rewrite square_overflows. reflexivity.
Qed.

(** C8, as the sentence has it, fails: a draw whose thrown stone lies at
    x = 1e200 makes [infer_target] raise [OverflowError]. *)
Lemma infer_target_overflow :
  infer_target (mkShot 1 1 1 "red" "Draw") [] [mkStone "red" (10 ^ 200) 0]
  = Raise OverflowError.
Proof.
  apply (draw_overflow (mkShot 1 1 1 "red" "Draw") []
           [mkStone "red" (10 ^ 200) 0] 0); reflexivity.
Qed.

(** C8, as the code has it.  For every shot record and every pair of
    snapshots whose coordinates are at most 1e153 in magnitude,
    [infer_target] returns a target without raising, with a confidence
    between 0 and 1, and so does every heuristic of the dispatch table.
    Whatever the coordinates, [infer_target] returns such a target or raises
    [OverflowError], nothing else; and a shot type that is not a key of the
    table yields the button (0, 0) at confidence 0.3. *)
Theorem infer_target_outcome (shot_data : shot) (pre post : list stone) :
  ((forall s, In s (pre ++ post) ->
      Rabs (stone_x s) <= 10 ^ 153 /\ Rabs (stone_y s) <= 10 ^ 153) ->
   (exists t, infer_target shot_data pre post = Ok t /\ 0 <= confidence t <= 1)
   /\ (forall key infer, In (key, infer) shot_type_targets ->
         exists t, infer shot_data pre post = Ok t /\ 0 <= confidence t <= 1))
  /\ ((exists t, infer_target shot_data pre post = Ok t /\ 0 <= confidence t <= 1)
      \/ infer_target shot_data pre post = Raise OverflowError)
  /\ (~ In (shot_type shot_data) (map fst shot_type_targets) ->
      infer_target shot_data pre post = Ok (mkTarget 0 0 (3 / 10))).
Proof.
  split; [| split].
  - intros Hrange.
    assert (Hpre : all_in_range pre)
      by (intros s Hs; apply Hrange, in_or_app; left; assumption).
    assert (Hpost : all_in_range post)
      by (intros s Hs; apply Hrange, in_or_app; right; assumption).
    split.
    + apply returns_in_range_returns, infer_target_in_range; assumption.
    + intros key infer Hin.
      apply returns_in_range_returns.
      apply (heuristics_in_range shot_data pre post key infer); assumption.
  - apply infer_target_outcome_cases.
  - apply infer_target_dispatch.
Qed.

(** A freeze beside a yellow stone. *)
Lemma infer_target_outcome_witness :
  exists t,
    infer_target (mkShot 3 1 2 "red" "Freeze")
      [mkStone "yellow" 0 1] [mkStone "yellow" 0 1; mkStone "red" 1 1] = Ok t
    /\ 0 <= confidence t <= 1.
Proof.
  apply (proj1 (infer_target_outcome (mkShot 3 1 2 "red" "Freeze")
                  [mkStone "yellow" 0 1] [mkStone "yellow" 0 1; mkStone "red" 1 1])).
  intros s Hs. simpl in Hs.
  assert (H0 : Rabs 0 <= 10 ^ 153)
    by (apply small_in_range; rewrite Rabs_R0; lra).
  assert (H1 : Rabs 1 <= 10 ^ 153)
    by (apply small_in_range; rewrite Rabs_R1; lra).
  destruct Hs as [<- | [<- | [<- | []]]]; simpl; split; assumption.
Defined.

(** ** Take-out, Tap and Peel *)

(** C6, as the sentence has it, fails: a take-out by yellow that lands on
    the button while the only red stone lies at x = 1e200 removes nothing,
    finds the thrown stone and an opposing stone, and raises
    [OverflowError]. *)
Lemma takeout_overflow :
  _find_removed_stones [mkStone "red" (10 ^ 200) 0]
                       [mkStone "red" (10 ^ 200) 0; mkStone "yellow" 0 0] = []
  /\ _find_thrown_stone (mkShot 2 1 2 "yellow" "Take-out")
       [mkStone "red" (10 ^ 200) 0]
       [mkStone "red" (10 ^ 200) 0; mkStone "yellow" 0 0]
     = Some (mkStone "yellow" 0 0)
  /\ infer_target (mkShot 2 1 2 "yellow" "Take-out")
       [mkStone "red" (10 ^ 200) 0]
       [mkStone "red" (10 ^ 200) 0; mkStone "yellow" 0 0]
     = Raise OverflowError.
Proof.
  assert (Hr : _find_removed_stones [mkStone "red" (10 ^ 200) 0]
                 [mkStone "red" (10 ^ 200) 0; mkStone "yellow" 0 0] = []).
  { rewrite find_removed_filter.
    cbv beta iota delta [filter map cxy cxy_in existsb cxy_eqb fst snd
                         stone_color stone_x stone_y].
    rewrite !Reqb_refl. reflexivity. }
  assert (Ht : _find_thrown_stone (mkShot 2 1 2 "yellow" "Take-out")
                 [mkStone "red" (10 ^ 200) 0]
                 [mkStone "red" (10 ^ 200) 0; mkStone "yellow" 0 0]
               = Some (mkStone "yellow" 0 0)) by reflexivity.
  split; [exact Hr |]. split; [exact Ht |].
  rewrite (proj1 (proj2 (proj2 (infer_target_dispatch
                    (mkShot 2 1 2 "yellow" "Take-out")
                    [mkStone "red" (10 ^ 200) 0]
                    [mkStone "red" (10 ^ 200) 0; mkStone "yellow" 0 0]))))
    by (left; reflexivity).
  unfold _infer_takeout_target. rewrite Hr, Ht.
  cbv beta iota zeta delta [truthy shot_color opponent_of String.eqb Ascii.eqb
                            Bool.eqb filter has_color stone_color map_result
                            distance_from stone_x stone_y].
  replace (10 ^ 200 - 0) with (10 ^ 200) by ring.
  rewrite square_overflows. reflexivity.
Qed.

(** C6, as the code has it.  For a Take-out, Tap or Peel shot: when stones
    were removed, the target is the first removed stone at confidence 0.9;
    otherwise, when a thrown stone is found and the opposing color has stones
    before the shot, all of them at most 1e153 in magnitude, the target is
    one of those stones, nearest to the thrown stone by Euclidean distance
    up to the rounding of the computed distances (no other of them is nearer
    by more than one part in 2^40 and 2^-500), at confidence 0.7; otherwise
    the target is the button at confidence 0.3.  With a red stone at (0, 0)
    before and a yellow stone at (0.3, 0.1) after, the target is (0, 0) at
    confidence 0.9. *)
Theorem takeout_target_rule :
  (forall (shot_data : shot) (pre post : list stone),
      In (shot_type shot_data) ["Take-out"; "Tap"; "Peel"] ->
      let removed_stones := _find_removed_stones pre post in
      let thrown := _find_thrown_stone shot_data pre post in
      let opposing :=
        if String.eqb (shot_color shot_data) "yellow" then "red" else "yellow" in
      let opponent_stones :=
        filter (fun s => String.eqb (stone_color s) opposing) pre in
      (forall r rest, removed_stones = r :: rest ->
         infer_target shot_data pre post
         = Ok (mkTarget (stone_x r) (stone_y r) (9 / 10)))
      /\ (forall thrown_stone,
            removed_stones = [] -> thrown = Some thrown_stone ->
            opponent_stones <> [] ->
            (forall s, In s (thrown_stone :: opponent_stones) ->
               Rabs (stone_x s) <= 10 ^ 153 /\ Rabs (stone_y s) <= 10 ^ 153) ->
            let euclidean := fun s =>
              sqrt ((stone_x s - stone_x thrown_stone) ^ 2
                    + (stone_y s - stone_y thrown_stone) ^ 2) in
            exists closest_stone,
              In closest_stone opponent_stones
              /\ (forall s, In s opponent_stones ->
                    euclidean closest_stone
                    <= (1 + / 2 ^ 40) * euclidean s + / 2 ^ 500)
              /\ infer_target shot_data pre post
                 = Ok (mkTarget (stone_x closest_stone) (stone_y closest_stone)
                                (7 / 10)))
      /\ (removed_stones = [] -> thrown = None \/ opponent_stones = [] ->
          infer_target shot_data pre post = Ok (mkTarget 0 0 (3 / 10))))
  /\ (forall sid eid number,
        infer_target (mkShot sid eid number "yellow" "Take-out")
          [mkStone "red" 0 0] [mkStone "yellow" (3 / 10) (1 / 10)]
        = Ok (mkTarget 0 0 (9 / 10))).
Proof.
  split.
  - intros shot_data pre post Hty.
    assert (Hd : infer_target shot_data pre post
                 = _infer_takeout_target shot_data pre post).
    { apply infer_target_dispatch. simpl in Hty. intuition auto. }
    rewrite Hd.
    destruct (takeout_cases shot_data pre post) as [Hr [Hn [_ Hf]]].
    cbv zeta. split; [exact Hr |]. split; [| exact Hf].
    intros th Hrem Hth Hne Hrange.
    destruct (Hn th Hrem Hth Hne) as [c [Hin [Hmin Hc]]].
    + apply Hrange. left. reflexivity.
    + intros s Hs. apply Hrange. right. exact Hs.
    + exists c. split; [exact Hin |]. split; [| exact Hc].
      intros s Hs. specialize (Hmin s Hs). unfold distance in Hmin.
      assert (Hrel : 0 < / 2 ^ 40) by (apply Rinv_0_lt_compat, pow_lt; lra).
      assert (Habs : 0 < / 2 ^ 500) by (apply Rinv_0_lt_compat, pow_lt; lra).
      set (e := / 2 ^ 40) in *. set (d := / 2 ^ 500) in *.
      match goal with
      | |- _ <= (1 + e) * ?ds + d =>
          assert (Hp : 0 <= e * ds)
            by (apply Rmult_le_pos; [lra | apply sqrt_pos]);
          replace ((1 + e) * ds) with (ds + e * ds) by ring
      end.
      lra.
  - intros sid eid number.
    rewrite (proj1 (proj2 (proj2 (infer_target_dispatch
                      (mkShot sid eid number "yellow" "Take-out")
                      [mkStone "red" 0 0]
                      [mkStone "yellow" (3 / 10) (1 / 10)]))))
      by (left; reflexivity).
    reflexivity.
Qed.

(** A take-out by yellow that removes nothing: of the red stones at (3, 0)
    and (1, 0), the second is the target. *)
Lemma takeout_target_rule_witness :
  infer_target (mkShot 5 1 4 "yellow" "Take-out")
    [mkStone "red" 3 0; mkStone "red" 1 0]
    [mkStone "red" 3 0; mkStone "red" 1 0; mkStone "yellow" 0 0]
  = Ok (mkTarget 1 0 (7 / 10)).
Proof.
  destruct (proj1 (proj2 (proj1 takeout_target_rule
                     (mkShot 5 1 4 "yellow" "Take-out")
                     [mkStone "red" 3 0; mkStone "red" 1 0]
                     [mkStone "red" 3 0; mkStone "red" 1 0; mkStone "yellow" 0 0]
                     (or_introl eq_refl)))
              (mkStone "yellow" 0 0))
    as [c [Hin [Hmin Hc]]].
  - rewrite find_removed_filter. unfold cxy_in, cxy_eqb. decide_R. reflexivity.
  - reflexivity.
  - discriminate.
  - assert (H0 : Rabs 0 <= 10 ^ 153)
      by (apply small_in_range; rewrite Rabs_R0; lra).
    assert (H1 : Rabs 1 <= 10 ^ 153)
      by (apply small_in_range; rewrite Rabs_R1; lra).
    assert (H3 : Rabs 3 <= 10 ^ 153)
      by (apply small_in_range; rewrite Rabs_pos_eq; lra).
    intros s [<- | [<- | [<- | []]]]; split; assumption.
  - destruct Hin as [<- | [<- | []]]; [exfalso | exact Hc].
    specialize (Hmin (mkStone "red" 1 0) (or_intror (or_introl eq_refl))).
    cbv beta iota delta [stone_x stone_y] in Hmin.
    replace ((3 - 0) ^ 2 + (0 - 0) ^ 2) with (3 ^ 2) in Hmin by ring.
    replace ((1 - 0) ^ 2 + (0 - 0) ^ 2) with (1 ^ 2) in Hmin by ring.
    rewrite !sqrt_pow2 in Hmin by lra.
    assert (/ 2 ^ 40 <= 1).
    { rewrite <- Rinv_1. apply Rinv_le_contravar; [lra |].
      apply pow_R1_Rle. lra. }
    assert (/ 2 ^ 500 <= 1).
    { rewrite <- Rinv_1. apply Rinv_le_contravar; [lra |].
      apply pow_R1_Rle. lra. }
    lra.
Defined.

(** ** Freeze *)

(** C10.  For a Freeze shot whose thrown stone is found while every stone
    of the post-snapshot has the thrown stone's coordinates, the target is
    not a midpoint but the button (0, 0) at confidence 0.4, which is also the
    target when no thrown stone is found. *)
Theorem freeze_without_other_stone (shot_data : shot) (pre post : list stone) :
  shot_type shot_data = "Freeze" ->
  (forall thrown_stone,
      _find_thrown_stone shot_data pre post = Some thrown_stone ->
      (forall s, In s post ->
         stone_x s = stone_x thrown_stone /\ stone_y s = stone_y thrown_stone) ->
      infer_target shot_data pre post = Ok (mkTarget 0 0 (4 / 10)))
  /\ (_find_thrown_stone shot_data pre post = None ->
      infer_target shot_data pre post = Ok (mkTarget 0 0 (4 / 10))).
Proof.
  intros Hty.
  assert (Hd : infer_target shot_data pre post
               = _infer_freeze_target shot_data pre post)
    by (apply infer_target_dispatch; assumption).
  rewrite Hd. unfold _infer_freeze_target. split.
  - intros th -> Hsame.
    assert (Hnone : filter (elsewhere th) post = []).
    { destruct (filter (elsewhere th) post) as [| o os] eqn:Eo; [reflexivity |].
      assert (Ho : In o (filter (elsewhere th) post)) by (rewrite Eo; left; reflexivity).
      apply filter_In in Ho. destruct Ho as [Hin Ho].
      destruct (Hsame o Hin) as [Hx Hy]. unfold elsewhere in Ho.
      rewrite Hx, Hy, !Reqb_refl in Ho. discriminate. }
    rewrite Hnone. reflexivity.
  - intros ->. reflexivity.
Qed.

(** A freeze thrown into an empty house. *)
Lemma freeze_without_other_stone_witness :
  infer_target (mkShot 1 1 1 "red" "Freeze") [] [mkStone "red" 1 1]
  = Ok (mkTarget 0 0 (4 / 10)).
Proof.
  apply (proj1 (freeze_without_other_stone (mkShot 1 1 1 "red" "Freeze")
                  [] [mkStone "red" 1 1] eq_refl)
               (mkStone "red" 1 1)).
  - reflexivity.
  - intros s [<- | []]. split; reflexivity.
Defined.

(** ** Per-shot driver *)

Lemma find_hd_filter {A : Type} (f : A -> bool) (l : list A) :
  find f l = hd_error (filter f l).
Proof.
  induction l as [| a l IH]; simpl; [reflexivity |].
  destruct (f a); [reflexivity | assumption].
Qed.

Lemma find_thrown_candidates (shot_data : shot) (pre post : list stone) :
  _find_thrown_stone shot_data pre post
  = if (count_of (shot_color shot_data) pre <? count_of (shot_color shot_data) post)%nat
    then hd_error (candidates shot_data pre post)
    else None.
Proof. rewrite find_thrown_unfold, find_hd_filter. reflexivity. Qed.

Lemma candidates_counted (shot_data : shot) (post : list stone) (c : stone)
    (more : list stone) :
  candidates shot_data [] post = c :: more ->
  (count_of (shot_color shot_data) [] < count_of (shot_color shot_data) post)%nat.
Proof.
  intros Hc.
  assert (Hin : In c (candidates shot_data [] post))
    by (rewrite Hc; left; reflexivity).
  apply filter_In in Hin. destruct Hin as [Hin Hnew].
  unfold is_new_stone in Hnew. apply andb_prop in Hnew.
  assert (Hf : In c (filter (has_color (shot_color shot_data)) post))
    by (apply filter_In; tauto).
  unfold count_of. simpl.
  destruct (filter (has_color (shot_color shot_data)) post);
    [destruct Hf | simpl; lia].
Qed.

Lemma flat_map_nil {A B : Type} (f : A -> list B) (l : list A) :
  (forall a, f a = []) -> flat_map f l = [].
Proof.
  intros H. induction l as [| a l IH]; simpl; [reflexivity |].
  rewrite H, IH. reflexivity.
Qed.

(** A [numpy.int64] parameter matches no row. *)
Lemma prev_shot_query_blob (db : database) (eid : Z) (number : sql_number) :
  prev_shot_query db (NumpyInt64 eid) number = [].
Proof.
  unfold prev_shot_query. apply flat_map_nil. intros sp.
  apply flat_map_nil. intros s. simpl. rewrite andb_false_r. reflexivity.
Qed.

(** The driver never loads a stone of the previous shot. *)
Lemma pre_shot_stones_of_nil (db : database) (shot_data : shot) :
  pre_shot_stones_of db shot_data = [].
Proof.
  unfold pre_shot_stones_of. destruct (1 <? _)%Z; [| reflexivity].
  apply prev_shot_query_blob.
Qed.

Lemma previous_positions_first (db : database) (shot_data : shot) :
  (shot_number shot_data <= 1)%Z -> previous_positions db shot_data = [].
Proof.
  intros H. unfold previous_positions.
  replace (1 <? shot_number shot_data)%Z with false
    by (symmetry; apply Z.ltb_ge; assumption).
  reflexivity.
Qed.

Lemma call_metrics_fits (sid : Z) (target : inferred_target) (final : stone) :
  in_range final ->
  Rabs (target_x target) <= COORD_MAX -> Rabs (target_y target) <= COORD_MAX ->
  call_calculate_accuracy_metrics sid target final
  = Ok (calculate_accuracy_metrics sid target final).
Proof.
  intros [Hx Hy] Htx Hty. unfold call_calculate_accuracy_metrics.
  rewrite !square_fits by (apply diff_in_range; assumption). reflexivity.
Qed.

Lemma call_metrics_outcome (sid : Z) (target : inferred_target) (final : stone) :
  call_calculate_accuracy_metrics sid target final
  = Ok (calculate_accuracy_metrics sid target final)
  \/ call_calculate_accuracy_metrics sid target final = Raise OverflowError.
Proof.
  unfold call_calculate_accuracy_metrics.
  destruct (square_outcome (stone_x final - target_x target)) as [-> | ->];
    [| right; reflexivity].
  destruct (square_outcome (stone_y final - target_y target)) as [-> | ->];
    [left | right]; reflexivity.
Qed.

Lemma shot_record_none (sid : Z) (shot_data : shot) (pre post : list stone) :
  _find_thrown_stone shot_data pre post = None ->
  shot_record sid shot_data pre post = Ok None.
Proof.
  intros Hnone. unfold shot_record.
  destruct (infer_target_without_thrown shot_data pre post Hnone) as [t [-> _]].
  simpl. rewrite Hnone. reflexivity.
Qed.

Lemma shot_record_in_range (sid : Z) (shot_data : shot) (pre post : list stone)
    (thrown_stone : stone) :
  _find_thrown_stone shot_data pre post = Some thrown_stone ->
  all_in_range pre -> all_in_range post ->
  exists target,
    infer_target shot_data pre post = Ok target
    /\ shot_record sid shot_data pre post
       = Ok (Some (mkRecord
                     (calculate_accuracy_metrics sid target thrown_stone) sid
                     (stone_x thrown_stone) (stone_y thrown_stone)
                     (target_x target) (target_y target)
                     (confidence target))).
Proof.
  intros Hth Hpre Hpost. unfold shot_record.
  destruct (infer_target_in_range shot_data pre post Hpre Hpost)
    as [t [Ht [_ [Hx Hy]]]].
  exists t. split; [assumption |]. rewrite Ht. simpl. rewrite Hth.
  rewrite call_metrics_fits;
    [reflexivity | apply Hpost; eapply find_thrown_In; eassumption
     | assumption | assumption].
Qed.

(** A record is the record of the thrown stone and the inferred target. *)
Lemma shot_record_inv (sid : Z) (shot_data : shot) (pre post : list stone)
    (r : accuracy_record) :
  shot_record sid shot_data pre post = Ok (Some r) ->
  exists thrown_stone target,
    _find_thrown_stone shot_data pre post = Some thrown_stone
    /\ infer_target shot_data pre post = Ok target
    /\ r = mkRecord (calculate_accuracy_metrics sid target thrown_stone) sid
                    (stone_x thrown_stone) (stone_y thrown_stone)
                    (target_x target) (target_y target) (confidence target).
Proof.
  unfold shot_record.
  destruct (infer_target shot_data pre post) as [t | e]; [| discriminate].
  simpl.
  destruct (_find_thrown_stone shot_data pre post) as [th |]; [| discriminate].
  destruct (call_metrics_outcome sid t th) as [-> | ->]; [| discriminate].
  simpl. intros H. inversion H. exists th, t. auto.
Qed.

(** The only exception is [OverflowError]. *)
Lemma shot_record_raises (sid : Z) (shot_data : shot) (pre post : list stone)
    (e : exn) :
  shot_record sid shot_data pre post = Raise e -> e = OverflowError.
Proof.
  unfold shot_record.
  destruct (infer_target_outcome_cases shot_data pre post) as [[t [-> _]] | ->].
  - simpl.
    destruct (_find_thrown_stone shot_data pre post) as [th |]; [| discriminate].
    destruct (call_metrics_outcome sid t th) as [-> | ->]; simpl; congruence.
  - simpl. congruence.
Qed.

(** What the driver does once the shot row is loaded. *)
Lemma process_shot_accuracy_loaded (db : database) (sid : Z) (shot_data : shot)
    (rest : list shot) :
  shot_query db sid = shot_data :: rest ->
  process_shot_accuracy db sid
  = shot_record sid shot_data [] (post_shot_query db sid).
Proof.
  intros Hq. unfold process_shot_accuracy. rewrite Hq.
  rewrite pre_shot_stones_of_nil.
  destruct (post_shot_query db sid) as [| p post] eqn:Ep; [| reflexivity].
  simpl. symmetry. apply shot_record_none. reflexivity.
Qed.

(** What the pipeline does for a row of its shot query. *)
Lemma pipeline_shot_loaded (db : database) (scored : scored_shot) :
  pipeline_shot db scored
  = (r <- shot_record (shot_id (scored_row scored)) (scored_row scored)
            (previous_positions db (scored_row scored))
            (post_shot_query db (shot_id (scored_row scored))) ;;
     Ok (option_map (pipeline_row_of scored) r)).
Proof.
  unfold pipeline_shot. cbv zeta.
  destruct (post_shot_query db (shot_id (scored_row scored))) as [| p post] eqn:Ep.
  - simpl. rewrite shot_record_none by reflexivity. reflexivity.
  - cbv beta iota delta [truthy negb]. unfold shot_record.
    destruct (infer_target _ _ _) as [t | e]; [| reflexivity].
    simpl.
    destruct (_find_thrown_stone _ _ _) as [th |]; [| reflexivity].
    destruct (call_calculate_accuracy_metrics _ _ _) as [m | e]; reflexivity.
Qed.

(** C1, as the sentence has it, fails: with two candidate thrown stones the
    driver returns a record, for the first of them. *)
Lemma two_candidates_yield_a_record :
  candidates (mkShot 1 1 1 "red" "Draw") []
             [mkStone "red" 1 1; mkStone "red" 2 2]
  = [mkStone "red" 1 1; mkStone "red" 2 2]
  /\ exists r,
       process_shot_accuracy two_new_stones 1 = Ok (Some r)
       /\ final_position_x r = 1 /\ final_position_y r = 1.
Proof.
  split; [reflexivity |].
  rewrite (process_shot_accuracy_loaded two_new_stones 1
             (mkShot 1 1 1 "red" "Draw") [] eq_refl).
  destruct (shot_record_in_range 1 (mkShot 1 1 1 "red" "Draw") []
              (post_shot_query two_new_stones 1) (mkStone "red" 1 1) eq_refl)
    as [t [_ Hp]].
  - intros s [].
  - assert (H1 : Rabs 1 <= COORD_MAX)
      by (apply small_in_range; rewrite Rabs_R1; lra).
    assert (H2 : Rabs 2 <= COORD_MAX)
      by (apply small_in_range; rewrite Rabs_pos_eq; lra).
    intros s [<- | [<- | []]]; split; assumption.
  - eexists. split; [exact Hp |]. simpl. auto.
Qed.

(** C1, as the code has it.  Where the pre-snapshot is the one recorded for
    the previous shot (for every row of the pipeline's metric step; in the
    driver for the first shot of an end, whose pre-snapshot is empty): when
    no candidate thrown stone exists, or the shooting color has no more
    stones after the shot than before it, no record is produced, without
    raising.  When the count grew and candidates exist, one or several, with
    all coordinates at most 1e153 in magnitude, the first candidate in
    post-snapshot order is the thrown stone and a record is produced for
    it. *)
Theorem record_for_first_candidate (db : database) :
  (forall scored : scored_shot,
      let shot_data := scored_row scored in
      let pre :=
        if (1 <? shot_number shot_data)%Z
        then prev_shot_query db (PyInt (shot_end_id shot_data))
                                (PyInt (shot_number shot_data - 1))
        else [] in
      let post := post_shot_query db (shot_id shot_data) in
      let side := shot_color shot_data in
      (candidates shot_data pre post = [] -> pipeline_shot db scored = Ok None)
      /\ ((count_of side post <= count_of side pre)%nat ->
          pipeline_shot db scored = Ok None)
      /\ (forall c more,
            (count_of side pre < count_of side post)%nat ->
            candidates shot_data pre post = c :: more ->
            (forall s, In s (pre ++ post) ->
               Rabs (stone_x s) <= 10 ^ 153 /\ Rabs (stone_y s) <= 10 ^ 153) ->
            exists row,
              pipeline_shot db scored = Ok (Some row)
              /\ row_shot_id (pipeline_metrics row) = shot_id shot_data
              /\ row_final_position_x (pipeline_metrics row) = stone_x c
              /\ row_final_position_y (pipeline_metrics row) = stone_y c))
  /\ (forall (sid : Z) (shot_data : shot) (rest : list shot),
        shot_query db sid = shot_data :: rest ->
        (shot_number shot_data <= 1)%Z ->
        let post := post_shot_query db sid in
        (candidates shot_data [] post = [] ->
         process_shot_accuracy db sid = Ok None)
        /\ (forall c more,
              candidates shot_data [] post = c :: more ->
              (forall s, In s post ->
                 Rabs (stone_x s) <= 10 ^ 153 /\ Rabs (stone_y s) <= 10 ^ 153) ->
              exists r,
                process_shot_accuracy db sid = Ok (Some r)
                /\ record_shot_id r = sid
                /\ final_position_x r = stone_x c
                /\ final_position_y r = stone_y c)).
Proof.
  split.
  - intros scored shot_data pre post side.
    rewrite pipeline_shot_loaded.
    change (previous_positions db (scored_row scored)) with pre.
    fold shot_data. fold post.
    pose proof (find_thrown_candidates shot_data pre post) as Hf. fold side in Hf.
    split; [| split].
    + intros Hc. rewrite shot_record_none; [reflexivity |].
      rewrite Hf, Hc. destruct (_ <? _)%nat; reflexivity.
    + intros Hle. rewrite shot_record_none; [reflexivity |].
      rewrite Hf.
      replace (_ <? _)%nat with false by (symmetry; apply Nat.ltb_ge; assumption).
      reflexivity.
    + intros c more Hlt Hc Hrange.
      destruct (shot_record_in_range (shot_id shot_data) shot_data pre post c)
        as [t [_ Hp]].
      * rewrite Hf, Hc.
        replace (_ <? _)%nat with true by (symmetry; apply Nat.ltb_lt; assumption).
        reflexivity.
      * intros s Hs. apply Hrange, in_or_app. left. assumption.
      * intros s Hs. apply Hrange, in_or_app. right. assumption.
      * rewrite Hp. eexists. split; [reflexivity |]. simpl. auto.
  - intros sid shot_data rest Hq Hfirst post.
    rewrite (process_shot_accuracy_loaded db sid shot_data rest Hq). fold post.
    pose proof (find_thrown_candidates shot_data [] post) as Hf.
    split.
    + intros Hc. apply shot_record_none.
      rewrite Hf, Hc. destruct (_ <? _)%nat; reflexivity.
    + intros c more Hc Hrange.
      destruct (shot_record_in_range sid shot_data [] post c) as [t [_ Hp]].
      * rewrite Hf, Hc.
        replace (_ <? _)%nat with true
          by (symmetry; apply Nat.ltb_lt;
              apply (candidates_counted shot_data post c more Hc)).
        reflexivity.
      * intros s [].
      * exact Hrange.
      * rewrite Hp. eexists. split; [reflexivity |]. simpl. auto.
Qed.

(** The third shot of [three_shots] in the pipeline: the red stone at
    (1, 1) lay there before the shot, so the record is that of the red stone
    at (0, 1). *)
Lemma record_for_first_candidate_witness :
  exists row,
    pipeline_shot three_shots (mkScored (mkShot 3 1 3 "red" "Draw") 80)
    = Ok (Some row)
    /\ row_shot_id (pipeline_metrics row) = 3%Z
    /\ row_final_position_x (pipeline_metrics row) = 0
    /\ row_final_position_y (pipeline_metrics row) = 1.
Proof.
  apply (proj2 (proj2 (proj1 (record_for_first_candidate three_shots)
                         (mkScored (mkShot 3 1 3 "red" "Draw") 80)))
               (mkStone "red" 0 1) []).
  - unfold count_of. simpl. lia.
  - unfold candidates, positions_of, is_new_stone, xy_in, xy_eqb.
    decide_R. reflexivity.
  - assert (H0 : Rabs 0 <= 10 ^ 153)
      by (apply small_in_range; rewrite Rabs_R0; lra).
    assert (H1 : Rabs 1 <= 10 ^ 153)
      by (apply small_in_range; rewrite Rabs_R1; lra).
    assert (H2 : Rabs 2 <= 10 ^ 153)
      by (apply small_in_range; rewrite Rabs_pos_eq; lra).
    simpl. intros s Hs.
    repeat (destruct Hs as [<- | Hs]; [split; assumption |]).
    destruct Hs.
Defined.
(** * Further properties of the differ *)

Lemma filter_ext_in_iff {A : Type} (f g : A -> bool) (l : list A) :
  (forall a, In a l -> f a = g a) -> filter f l = filter g l.
Proof.
  induction l as [| a l IH]; intros H; simpl; [reflexivity |].
  rewrite (H a) by (left; reflexivity).
  rewrite IH by (intros b Hb; apply H; right; assumption). reflexivity.
Qed.

(** X1.  The stone [_find_thrown_stone] returns is never among the stones
    [_find_removed_stones] returns for the same snapshots; the removed
    stones do not even hold a stone of its color at its coordinates. *)
Theorem thrown_stone_not_removed (shot_data : shot) (pre post : list stone)
    (thrown_stone : stone) :
  _find_thrown_stone shot_data pre post = Some thrown_stone ->
  ~ In thrown_stone (_find_removed_stones pre post)
  /\ forall r, In r (_find_removed_stones pre post) ->
       ~ (stone_color r = stone_color thrown_stone /\ xy r = xy thrown_stone).
Proof.
  intros Hth.
  assert (Hd : discriminating (shot_color shot_data) pre thrown_stone).
  { rewrite find_thrown_unfold in Hth.
    destruct (_ <? _)%nat in Hth; [| discriminate].
    apply find_Some_split in Hth. destruct Hth as [l1 [l2 [_ [Hn _]]]].
    apply is_new_stone_true_iff. assumption. }
  destruct Hd as [Hc Hn].
  assert (Hall : forall r, In r (_find_removed_stones pre post) ->
            ~ (stone_color r = stone_color thrown_stone /\ xy r = xy thrown_stone)).
  { intros r Hr [Hrc Hrxy]. apply Hn. rewrite <- Hrxy.
    rewrite find_removed_filter in Hr. apply filter_In in Hr.
    unfold positions_of. apply in_map. apply filter_In. split; [apply Hr |].
    unfold has_color. rewrite Hrc, Hc. apply String.eqb_refl. }
  split; [| exact Hall].
  intros Hin. apply (Hall thrown_stone Hin). split; reflexivity.
Qed.

(** A yellow stone is thrown while the red stone on the button is removed. *)
Lemma thrown_stone_not_removed_witness :
  ~ In (mkStone "yellow" (3 / 10) (1 / 10))
       (_find_removed_stones [mkStone "red" 0 0]
                             [mkStone "yellow" (3 / 10) (1 / 10)]).
Proof.
  apply (proj1 (thrown_stone_not_removed (mkShot 5 1 4 "yellow" "Take-out")
                  [mkStone "red" 0 0] [mkStone "yellow" (3 / 10) (1 / 10)]
                  (mkStone "yellow" (3 / 10) (1 / 10)) eq_refl)).
Defined.

Lemma count_of_filter (c : string) (stones : list stone) :
  count_of c (filter (has_color c) stones) = count_of c stones.
Proof.
  unfold count_of. f_equal.
  induction stones as [| s l IH]; simpl; [reflexivity |].
  destruct (has_color c s) eqn:E; simpl; rewrite ?E, IH; reflexivity.
Qed.

Lemma positions_of_filter (c : string) (stones : list stone) :
  positions_of c (filter (has_color c) stones) = positions_of c stones.
Proof.
  unfold positions_of. f_equal.
  induction stones as [| s l IH]; simpl; [reflexivity |].
  destruct (has_color c s) eqn:E; simpl; rewrite ?E, IH; reflexivity.
Qed.

Lemma find_new_stone_filter (c : string) (positions : list (R * R))
    (stones : list stone) :
  find (is_new_stone c positions) (filter (has_color c) stones)
  = find (is_new_stone c positions) stones.
Proof.
  induction stones as [| s l IH]; simpl; [reflexivity |].
  unfold is_new_stone at 2. destruct (has_color c s) eqn:E; simpl.
  - unfold is_new_stone at 1. rewrite E, IH. reflexivity.
  - assumption.
Qed.

(** X2.  Stones of other colors never influence which stone is identified
    as thrown: dropping them from both snapshots leaves the result of
    [_find_thrown_stone] unchanged. *)
Theorem find_thrown_ignores_other_colors (shot_data : shot)
    (pre post : list stone) :
  _find_thrown_stone shot_data
    (filter (has_color (shot_color shot_data)) pre)
    (filter (has_color (shot_color shot_data)) post)
  = _find_thrown_stone shot_data pre post.
Proof.
  rewrite !find_thrown_unfold, !count_of_filter, positions_of_filter.
  rewrite find_new_stone_filter. reflexivity.
Qed.

(** X3.  [_find_removed_stones] uses the post-snapshot as a set of
    (color, x, y) triples: two post-snapshots with the same triples, in any
    order and with any repetitions, give the same removed stones. *)
Theorem find_removed_post_as_set (pre post post' : list stone) :
  (forall t, In t (map cxy post) <-> In t (map cxy post')) ->
  _find_removed_stones pre post = _find_removed_stones pre post'.
Proof.
  intros Hset. rewrite !find_removed_filter. apply filter_ext_in_iff.
  intros s _. f_equal.
  destruct (cxy_in (cxy s) (map cxy post)) eqn:E.
  - symmetry. apply cxy_in_true_iff, Hset, cxy_in_true_iff. assumption.
  - symmetry. apply cxy_in_false_iff. intros H.
    apply cxy_in_false_iff in E. apply E, Hset. assumption.
Qed.

(** The post-snapshot reordered and with a row repeated. *)
Lemma find_removed_post_as_set_witness :
  _find_removed_stones [mkStone "red" 0 0; mkStone "red" 1 1]
                       [mkStone "red" 1 1; mkStone "yellow" 2 2]
  = _find_removed_stones [mkStone "red" 0 0; mkStone "red" 1 1]
                         [mkStone "yellow" 2 2; mkStone "red" 1 1;
                          mkStone "yellow" 2 2].
Proof.
  apply (find_removed_post_as_set [mkStone "red" 0 0; mkStone "red" 1 1]
           [mkStone "red" 1 1; mkStone "yellow" 2 2]
           [mkStone "yellow" 2 2; mkStone "red" 1 1; mkStone "yellow" 2 2]).
  intros t. simpl. tauto.
Defined.

(** X4.  Removal composes: the stones of two consecutive pre-snapshots are
    checked one list after the other; stones missing after a joint
    post-snapshot are those missing after its first part and then after its
    second; and checking the removed stones against the same post-snapshot
    again returns all of them. *)
Theorem find_removed_composes (pre pre' post post' : list stone) :
  _find_removed_stones (pre ++ pre') post
  = _find_removed_stones pre post ++ _find_removed_stones pre' post
  /\ _find_removed_stones pre (post ++ post')
     = _find_removed_stones (_find_removed_stones pre post) post'
  /\ _find_removed_stones (_find_removed_stones pre post) post
     = _find_removed_stones pre post.
Proof.
  split; [| split].
  - rewrite !find_removed_filter. apply filter_app.
  - rewrite !find_removed_filter.
    induction pre as [| s l IH]; simpl; [reflexivity |].
    rewrite map_app. unfold cxy_in at 1. rewrite existsb_app.
    fold (cxy_in (cxy s) (map cxy post)). fold (cxy_in (cxy s) (map cxy post')).
    destruct (cxy_in (cxy s) (map cxy post)) eqn:E1; simpl.
    + rewrite <- IH. rewrite map_app. reflexivity.
    + rewrite <- IH. rewrite map_app. reflexivity.
  - rewrite !find_removed_filter.
    induction pre as [| s l IH]; simpl; [reflexivity |].
    destruct (cxy_in (cxy s) (map cxy post)) eqn:E; simpl.
    + assumption.
    + rewrite E. simpl. rewrite IH. reflexivity.
Qed.

(** * Further properties of the metric calculator *)

Lemma Rleb_cases (a b : R) :
  (a <= b /\ Rleb a b = true) \/ (b < a /\ Rleb a b = false).
Proof.
  destruct (Rle_dec a b) as [H | H].
  - left. split; [assumption | apply Rleb_true_iff; assumption].
  - right. split; [lra | apply Rleb_false_iff; lra].
Qed.

(** Splits the goal along every threshold comparison it contains. *)
Ltac split_thresholds :=
  repeat match goal with
  | |- context [Rleb ?a ?b] =>
      let H := fresh "Hcmp" in
      destruct (Rleb_cases a b) as [[H ->] | [H ->]]
  end.

(** X5.  Categories never move backward: a larger distance error gets the
    same or a later category of (on_target, close, moderate, large), and a
    larger direction error the same or a later category of (on_line, slight,
    moderate, large). *)
Theorem category_monotone (v w : R) :
  v <= w ->
  (rank_of DISTANCE_THRESHOLDS (categorize DISTANCE_THRESHOLDS v "large")
   <= rank_of DISTANCE_THRESHOLDS (categorize DISTANCE_THRESHOLDS w "large"))%nat
  /\ (rank_of DIRECTION_THRESHOLDS (categorize DIRECTION_THRESHOLDS v "large")
      <= rank_of DIRECTION_THRESHOLDS (categorize DIRECTION_THRESHOLDS w "large"))%nat.
Proof.
  intros Hvw. unfold DISTANCE_THRESHOLDS, DIRECTION_THRESHOLDS. simpl.
  split; split_thresholds; simpl; first [lia | exfalso; lra].
Qed.

(** An error of 30 cm against one of 70 cm. *)
Lemma category_monotone_witness :
  (rank_of DISTANCE_THRESHOLDS (categorize DISTANCE_THRESHOLDS (3 / 10) "large")
   <= rank_of DISTANCE_THRESHOLDS (categorize DISTANCE_THRESHOLDS (7 / 10) "large"))%nat.
Proof.
  apply (proj1 (category_monotone (3 / 10) (7 / 10) ltac:(lra))).
Defined.

Lemma magnitude_by_errors (v a : R) :
  let magnitude :=
    magnitude_of (categorize DISTANCE_THRESHOLDS v "large")
                 (categorize DIRECTION_THRESHOLDS a "large") in
  (magnitude = "minor" <-> v <= 20 / 100 /\ a <= 8)
  /\ (magnitude = "moderate" <->
      v <= 50 / 100 /\ a <= 15 /\ (20 / 100 < v \/ 8 < a))
  /\ (magnitude = "major" <-> 50 / 100 < v \/ 15 < a).
Proof.
  unfold DISTANCE_THRESHOLDS, DIRECTION_THRESHOLDS, magnitude_of, str_in. simpl.
  split_thresholds; simpl; repeat split; intros; try discriminate; try lra.
Qed.

(** X6.  The magnitude in terms of the two errors: it is minor exactly when
    the distance error is at most 0.20 and the direction error at most 8,
    major exactly when the distance error exceeds 0.50 or the direction
    error exceeds 15, and moderate in between. *)
Theorem error_magnitude_by_errors (sid : Z) (target : inferred_target)
    (final_position : stone) :
  let m := calculate_accuracy_metrics sid target final_position in
  let d := target_distance_error m in
  let a := path_direction_error m in
  (error_magnitude m = "minor" <-> d <= 20 / 100 /\ a <= 8)
  /\ (error_magnitude m = "moderate" <->
      d <= 50 / 100 /\ a <= 15 /\ (20 / 100 < d \/ 8 < a))
  /\ (error_magnitude m = "major" <-> 50 / 100 < d \/ 15 < a).
Proof.
  intros m d a.
  exact (magnitude_by_errors (target_distance_error m) (path_direction_error m)).
Qed.

(** X7.  Target and final position are interchangeable: with the target
    taken as final position and the final position as target, all five
    fields of the metrics are the same, whatever the confidence and the
    color put on the swapped values. *)
Theorem metrics_swap (sid : Z) (target : inferred_target)
    (final_position : stone) (c : R) (col : string) :
  calculate_accuracy_metrics sid
    (mkTarget (stone_x final_position) (stone_y final_position) c)
    (mkStone col (target_x target) (target_y target))
  = calculate_accuracy_metrics sid target final_position.
Proof.
  unfold calculate_accuracy_metrics.
  cbv beta iota zeta delta [target_x target_y stone_x stone_y].
  destruct target as [tx ty tc], final_position as [fc fx fy].
  replace ((tx - fx) ^ 2 + (ty - fy) ^ 2) with ((fx - tx) ^ 2 + (fy - ty) ^ 2)
    by ring.
  replace (Rabs (degrees (angle_of fx fy - angle_of tx ty)))
    with (Rabs (degrees (angle_of tx ty - angle_of fx fy))).
  - reflexivity.
  - rewrite <- Rabs_Ropp. f_equal. unfold degrees. ring.
Qed.

(** * Further properties of the driver and the heuristics *)

(** Without a pre-snapshot the thrown stone is the first stone of the
    shooting color. *)
Lemma find_thrown_no_pre (shot_data : shot) (post : list stone) :
  _find_thrown_stone shot_data [] post
  = find (has_color (shot_color shot_data)) post.
Proof.
  rewrite find_thrown_unfold.
  assert (Hsame : find (is_new_stone (shot_color shot_data)
                          (positions_of (shot_color shot_data) [])) post
                  = find (has_color (shot_color shot_data)) post).
  { induction post as [| p l IH]; simpl; [reflexivity |].
    unfold is_new_stone at 1. simpl. rewrite andb_true_r.
    destruct (has_color (shot_color shot_data) p); [reflexivity | exact IH]. }
  rewrite Hsame. unfold count_of at 1. simpl.
  destruct (count_of (shot_color shot_data) post) as [| n] eqn:En;
    [| reflexivity].
  simpl. symmetry. apply find_None_iff. intros a Ha.
  destruct (has_color (shot_color shot_data) a) eqn:Ea; [| reflexivity].
  unfold count_of in En. apply length_zero_iff_nil in En.
  assert (Hin : In a (filter (has_color (shot_color shot_data)) post))
    by (apply filter_In; auto).
  rewrite En in Hin. destruct Hin.
Qed.

(** Every record comes from a loaded shot, its thrown stone and its
    inferred target. *)
Lemma process_record_inv (db : database) (sid : Z) (r : accuracy_record) :
  process_shot_accuracy db sid = Ok (Some r) ->
  exists shot_data rest thrown_stone target,
    shot_query db sid = shot_data :: rest
    /\ _find_thrown_stone shot_data (pre_shot_stones_of db shot_data)
         (post_shot_query db sid) = Some thrown_stone
    /\ infer_target shot_data (pre_shot_stones_of db shot_data)
         (post_shot_query db sid) = Ok target
    /\ r = mkRecord (calculate_accuracy_metrics sid target thrown_stone) sid
                    (stone_x thrown_stone) (stone_y thrown_stone)
                    (target_x target) (target_y target) (confidence target).
Proof.
  intros Hp.
  destruct (shot_query db sid) as [| shot_data rest] eqn:Hq.
  - unfold process_shot_accuracy in Hp. rewrite Hq in Hp. discriminate.
  - rewrite (process_shot_accuracy_loaded db sid shot_data rest Hq) in Hp.
    destruct (shot_record_inv _ _ _ _ _ Hp) as [th [t [Hth [Ht Hr]]]].
    exists shot_data, rest, th, t. rewrite pre_shot_stones_of_nil. auto.
Qed.

Lemma path_direction_error_range (sid : Z) (target : inferred_target)
    (final_position : stone) :
  0 <= path_direction_error
         (calculate_accuracy_metrics sid target final_position) <= 180.
Proof.
  unfold calculate_accuracy_metrics.
  cbv beta iota zeta delta [path_direction_error].
  set (raw := Rabs (degrees (angle_of (target_x target) (target_y target)
                             - angle_of (stone_x final_position)
                                        (stone_y final_position)))).
  assert (Hraw : 0 <= raw < 360).
  { apply degrees_abs_bound.
    pose proof (angle_of_bound (target_x target) (target_y target)).
    pose proof (angle_of_bound (stone_x final_position) (stone_y final_position)).
    lra. }
  destruct (Rltb 180 raw) eqn:E.
  - apply Rltb_true_iff in E. lra.
  - apply Rltb_false_iff in E. lra.
Qed.

(** The stones of a list of small coordinates are in range. *)
Ltac small_stones :=
  let s := fresh "s" in
  let Hs := fresh "Hs" in
  intros s Hs; simpl in Hs;
  repeat (destruct Hs as [<- | Hs];
          [split; apply small_in_range, Rabs_le; simpl; lra |]);
  destruct Hs.

Lemma process_in_range (db : database) (sid : Z) (shot_data : shot)
    (rest : list shot) :
  shot_query db sid = shot_data :: rest ->
  all_in_range (post_shot_query db sid) ->
  match find (has_color (shot_color shot_data)) (post_shot_query db sid) with
  | None => process_shot_accuracy db sid = Ok None
  | Some thrown_stone =>
      exists r, process_shot_accuracy db sid = Ok (Some r)
                /\ final_position_x r = stone_x thrown_stone
                /\ final_position_y r = stone_y thrown_stone
  end.
Proof.
  intros Hq Hrange.
  rewrite (process_shot_accuracy_loaded db sid shot_data rest Hq).
  rewrite <- find_thrown_no_pre.
  destruct (_find_thrown_stone shot_data [] (post_shot_query db sid))
    as [th |] eqn:Hth.
  - destruct (shot_record_in_range sid shot_data [] (post_shot_query db sid) th
                Hth) as [t [_ Hr]]; [intros s [] | exact Hrange |].
    rewrite Hr. eexists. split; [reflexivity |]. split; reflexivity.
  - apply shot_record_none. assumption.
Qed.

Lemma process_raises (db : database) (sid : Z) (e : exn) :
  process_shot_accuracy db sid = Raise e -> e = OverflowError.
Proof.
  destruct (shot_query db sid) as [| shot_data rest] eqn:Hq.
  - unfold process_shot_accuracy. rewrite Hq. discriminate.
  - rewrite (process_shot_accuracy_loaded db sid shot_data rest Hq).
    apply shot_record_raises.
Qed.

(** The exception reaches the caller of the driver: a draw recorded at
    x = 1e200 on the first shot of an end. *)
Lemma process_overflow :
  process_shot_accuracy (first_shot_db "Draw" [mkStone "red" (10 ^ 200) 0]) 1
  = Raise OverflowError.
Proof.
  rewrite (process_shot_accuracy_loaded
             (first_shot_db "Draw" [mkStone "red" (10 ^ 200) 0]) 1
             (mkShot 1 1 1 "red" "Draw") [] eq_refl).
  change (post_shot_query (first_shot_db "Draw" [mkStone "red" (10 ^ 200) 0]) 1)
    with [mkStone "red" (10 ^ 200) 0].
  unfold shot_record.
  rewrite (draw_overflow (mkShot 1 1 1 "red" "Draw") []
             [mkStone "red" (10 ^ 200) 0] 0) by reflexivity.
  reflexivity.
Qed.

(** X10.  The driver raises nothing but [OverflowError], and nothing at
    all when the coordinates recorded after the shot are at most 1e153 in
    magnitude.  It returns no record for a shot identifier the database does
    not hold or a shot without recorded positions.  The stones recorded for
    the previous shot never reach it: the thrown stone is the first stone of
    the shooting color recorded after the shot, whether or not a stone lay
    there before.  A record it returns carries the queried identifier, a
    confidence between 0 and 1, a distance error that is not negative and a
    direction error between 0 and 180, and its final position is that of
    this stone. *)
Theorem process_shot_accuracy_invariants (db : database) (sid : Z) :
  (forall e, process_shot_accuracy db sid = Raise e -> e = OverflowError)
  /\ (shot_query db sid = [] \/ post_shot_query db sid = [] ->
      process_shot_accuracy db sid = Ok None)
  /\ (forall shot_data rest,
        shot_query db sid = shot_data :: rest ->
        (forall s, In s (post_shot_query db sid) ->
           Rabs (stone_x s) <= 10 ^ 153 /\ Rabs (stone_y s) <= 10 ^ 153) ->
        match find (fun s => String.eqb (stone_color s) (shot_color shot_data))
                   (post_shot_query db sid) with
        | None => process_shot_accuracy db sid = Ok None
        | Some thrown_stone =>
            exists r, process_shot_accuracy db sid = Ok (Some r)
                      /\ final_position_x r = stone_x thrown_stone
                      /\ final_position_y r = stone_y thrown_stone
        end)
  /\ (forall r, process_shot_accuracy db sid = Ok (Some r) ->
        record_shot_id r = sid
        /\ 0 <= target_confidence r <= 1
        /\ 0 <= target_distance_error (record_metrics r)
        /\ 0 <= path_direction_error (record_metrics r) <= 180
        /\ exists shot_data rest thrown_stone,
             shot_query db sid = shot_data :: rest
             /\ find (fun s => String.eqb (stone_color s) (shot_color shot_data))
                     (post_shot_query db sid) = Some thrown_stone
             /\ final_position_x r = stone_x thrown_stone
             /\ final_position_y r = stone_y thrown_stone).
Proof.
  split; [apply process_raises | split; [| split]].
  - intros [Hq | Hpost].
    + unfold process_shot_accuracy. rewrite Hq. reflexivity.
    + unfold process_shot_accuracy. rewrite Hpost.
      destruct (shot_query db sid); reflexivity.
  - intros shot_data rest Hq Hrange.
    apply (process_in_range db sid shot_data rest Hq Hrange).
  - intros r Hr.
    destruct (process_record_inv db sid r Hr)
      as [shot_data [rest [th [t [Hq [Hth [Ht ->]]]]]]].
    cbv beta iota delta [record_shot_id target_confidence record_metrics
      final_position_x final_position_y].
    split; [reflexivity |]. split.
    { destruct (infer_target_outcome_cases shot_data
                  (pre_shot_stones_of db shot_data) (post_shot_query db sid))
        as [[t' [Ht' Hc]] | Ht']; rewrite Ht in Ht'; [| discriminate].
      inversion Ht'. subst t'. assumption. }
    split; [apply sqrt_pos |]. split.
    { apply path_direction_error_range. }
    exists shot_data, rest, th. split; [assumption |].
    rewrite pre_shot_stones_of_nil, find_thrown_no_pre in Hth.
    split; [exact Hth |]. split; reflexivity.
Qed.

(** The third shot of [three_shots] in the driver: the record is that of
    the red stone at (1, 1), which lay there before the shot. *)
Lemma process_shot_accuracy_invariants_witness :
  exists r,
    process_shot_accuracy three_shots 3 = Ok (Some r)
    /\ final_position_x r = 1
    /\ final_position_y r = 1.
Proof.
  apply (proj1 (proj2 (proj2 (process_shot_accuracy_invariants three_shots 3)))
           (mkShot 3 1 3 "red" "Draw") [] eq_refl).
  small_stones.
Defined.

(** A target placed on the final position gives the metrics of a perfect
    shot. *)
Lemma metrics_of_target_on_stone (sid : Z) (s : stone) (c : R) :
  calculate_accuracy_metrics sid (mkTarget (stone_x s) (stone_y s) c) s
  = mkMetrics 0 0 "on_target" "on_line" "minor".
Proof.
  unfold calculate_accuracy_metrics.
  cbv beta iota zeta delta [target_x target_y].
  replace (sqrt ((stone_x s - stone_x s) ^ 2 + (stone_y s - stone_y s) ^ 2))
    with 0 by (symmetry; apply sqrt_lem_1; lra).
  replace (Rabs (degrees (angle_of (stone_x s) (stone_y s)
                          - angle_of (stone_x s) (stone_y s))))
    with 0
    by (unfold degrees; rewrite Rminus_diag, Rmult_0_l, Rabs_R0; reflexivity).
  unfold magnitude_of, DISTANCE_THRESHOLDS, DIRECTION_THRESHOLDS. decide_R.
  reflexivity.
Qed.

(** The record of the one shot of [first_shot_db]. *)
Lemma first_shot_db_record (ty : string) (post : list stone)
    (thrown_stone : stone) :
  find (has_color "red") post = Some thrown_stone ->
  all_in_range post ->
  exists r,
    process_shot_accuracy (first_shot_db ty post) 1 = Ok (Some r)
    /\ final_position_x r = stone_x thrown_stone
    /\ final_position_y r = stone_y thrown_stone.
Proof.
  intros Hth Hrange.
  assert (Hpost : post_shot_query (first_shot_db ty post) 1 = post).
  { unfold post_shot_query, first_shot_db. simpl. clear.
    induction post as [| p l IH]; simpl; [reflexivity |].
    f_equal. exact IH. }
  pose proof (process_in_range (first_shot_db ty post) 1
                (mkShot 1 1 1 "red" ty) [] eq_refl) as H.
  rewrite Hpost in H. specialize (H Hrange).
  cbv beta iota delta [shot_color] in H. rewrite Hth in H. exact H.
Qed.

(** X11.  Every record of a Hit and Roll shot is that of a perfect shot:
    the target is the final position of the thrown stone at confidence 0.7,
    so both errors are 0, the categories on_target and on_line and the
    magnitude minor. *)
Theorem hit_and_roll_record (db : database) (sid : Z) (shot_data : shot)
    (rest : list shot) (r : accuracy_record) :
  shot_query db sid = shot_data :: rest ->
  shot_type shot_data = "Hit and Roll" ->
  process_shot_accuracy db sid = Ok (Some r) ->
  record_metrics r = mkMetrics 0 0 "on_target" "on_line" "minor"
  /\ record_target_x r = final_position_x r
  /\ record_target_y r = final_position_y r
  /\ target_confidence r = 7 / 10.
Proof.
  intros Hq Hty Hr.
  destruct (process_record_inv db sid r Hr)
    as [sd [rest' [th [t [Hq' [Hth [Ht ->]]]]]]].
  rewrite Hq in Hq'. inversion Hq'. subst sd rest'.
  rewrite (proj1 (proj2 (proj2 (proj2 (infer_target_dispatch shot_data _ _)))) Hty)
    in Ht.
  unfold _infer_hit_roll_target in Ht. rewrite Hth in Ht. inversion Ht. subst t.
  cbv beta iota delta [record_metrics record_target_x record_target_y
    final_position_x final_position_y target_confidence target_x target_y
    confidence].
  rewrite metrics_of_target_on_stone. repeat split.
Qed.

(** A hit and roll that ends at (1, -2). *)
Lemma hit_and_roll_record_witness :
  exists r,
    process_shot_accuracy
      (first_shot_db "Hit and Roll" [mkStone "red" 1 (-2)]) 1 = Ok (Some r)
    /\ record_metrics r = mkMetrics 0 0 "on_target" "on_line" "minor".
Proof.
  destruct (first_shot_db_record "Hit and Roll" [mkStone "red" 1 (-2)]
              (mkStone "red" 1 (-2)) eq_refl) as [r [Hr _]]; [small_stones |].
  exists r. split; [exact Hr |].
  apply (hit_and_roll_record
           (first_shot_db "Hit and Roll" [mkStone "red" 1 (-2)]) 1
           (mkShot 1 1 1 "red" "Hit and Roll") [] r eq_refl eq_refl Hr).
Defined.












(** X16.  On the first shot of an end the pre-snapshot is empty, whatever
    the database holds: the thrown stone is the first stone of the shooting
    color in the post-snapshot, and, the coordinates of the post-snapshot
    being at most 1e153 in magnitude, a record is returned exactly when
    there is one. *)
Theorem first_shot_of_end (db : database) (sid : Z) (shot_data : shot)
    (rest : list shot) :
  shot_query db sid = shot_data :: rest ->
  (shot_number shot_data <= 1)%Z ->
  pre_shot_stones_of db shot_data = []
  /\ (find (has_color (shot_color shot_data)) (post_shot_query db sid) = None ->
      process_shot_accuracy db sid = Ok None)
  /\ (forall s,
        find (has_color (shot_color shot_data)) (post_shot_query db sid) = Some s ->
        (forall p, In p (post_shot_query db sid) ->
           Rabs (stone_x p) <= 10 ^ 153 /\ Rabs (stone_y p) <= 10 ^ 153) ->
        exists r, process_shot_accuracy db sid = Ok (Some r)
                  /\ final_position_x r = stone_x s
                  /\ final_position_y r = stone_y s).
Proof.
  intros Hq Hnum.
  split; [apply pre_shot_stones_of_nil |]. split.
  - intros Hn.
    rewrite (process_shot_accuracy_loaded db sid shot_data rest Hq).
    apply shot_record_none. rewrite find_thrown_no_pre. assumption.
  - intros s Hs Hrange.
    pose proof (process_in_range db sid shot_data rest Hq Hrange) as H.
    rewrite Hs in H. exact H.
Qed.

(** Two red stones recorded after the first shot of an end. *)
Lemma first_shot_of_end_witness :
  exists r, process_shot_accuracy two_new_stones 1 = Ok (Some r)
            /\ final_position_x r = 1
            /\ final_position_y r = 1.
Proof.
  apply (proj2 (proj2 (first_shot_of_end two_new_stones 1
                         (mkShot 1 1 1 "red" "Draw") [] eq_refl ltac:(simpl; lia)))
               (mkStone "red" 1 1) eq_refl).
  small_stones.
Defined.

(** * Properties of the population run *)

Lemma insert_id_In (z x : Z) (ids : list Z) :
  In x (insert_id z ids) <-> x = z \/ In x ids.
Proof.
  induction ids as [| h t IH]; simpl.
  - intuition auto.
  - destruct (z <? h)%Z eqn:E1; simpl; [intuition auto |].
    destruct (z =? h)%Z eqn:E2; simpl.
    + apply Z.eqb_eq in E2. subst. intuition auto.
    + rewrite IH. intuition auto.
Qed.

Lemma insert_id_sorted (z : Z) (ids : list Z) :
  StronglySorted Z.lt ids -> StronglySorted Z.lt (insert_id z ids).
Proof.
  induction ids as [| h t IH]; intros Hs; simpl.
  - repeat constructor.
  - inversion Hs as [| ? ? Ht Hall]. subst.
    destruct (z <? h)%Z eqn:E1.
    + apply Z.ltb_lt in E1. constructor; [assumption |].
      constructor; [assumption |].
      rewrite Forall_forall in *. intros x Hx. specialize (Hall x Hx). lia.
    + destruct (z =? h)%Z eqn:E2; [assumption |].
      apply Z.ltb_ge in E1. apply Z.eqb_neq in E2.
      constructor; [apply IH; assumption |].
      rewrite Forall_forall in *. intros x Hx. apply insert_id_In in Hx.
      destruct Hx as [-> | Hx]; [lia | auto].
Qed.

Lemma firstn_In_full {A : Type} (n : nat) (l : list A) (a : A) :
  In a (firstn n l) -> In a l.
Proof.
  revert n. induction l as [| h t IH]; intros n H; destruct n; simpl in *;
    try contradiction.
  destruct H as [-> | H]; [left; reflexivity | right; eapply IH; exact H].
Qed.

Lemma firstn_sorted (n : nat) (ids : list Z) :
  StronglySorted Z.lt ids -> StronglySorted Z.lt (firstn n ids).
Proof.
  revert n. induction ids as [| h t IH]; intros n Hs; destruct n; simpl;
    try constructor.
  - inversion Hs. apply IH. assumption.
  - inversion Hs as [| ? ? Ht Hall]. subst. rewrite Forall_forall in *.
    intros x Hx. apply Hall. eapply firstn_In_full. exact Hx.
Qed.

Lemma shots_with_positions_sorted (db : database) :
  StronglySorted Z.lt (shots_with_positions db).
Proof.
  unfold shots_with_positions. apply firstn_sorted.
  induction (flat_map _ (shots db)) as [| z l IH]; simpl.
  - constructor.
  - apply insert_id_sorted. assumption.
Qed.

Lemma shots_with_positions_In (db : database) (sid : Z) :
  In sid (shots_with_positions db) ->
  exists s sp, In s (shots db) /\ In sp (stone_positions db)
               /\ shot_id s = sid /\ position_shot_id sp = sid.
Proof.
  unfold shots_with_positions. intros H. apply firstn_In_full in H.
  assert (Hin : forall l, In sid (fold_right insert_id [] l) -> In sid l).
  { induction l as [| z l IH]; simpl; [auto |].
    intros Hz. apply insert_id_In in Hz. destruct Hz as [-> | Hz]; auto. }
  apply Hin in H. apply in_flat_map in H. destruct H as [s [Hs H]].
  apply in_flat_map in H. destruct H as [sp [Hsp H]].
  destruct (shot_id s =? position_shot_id sp)%Z eqn:E; [| destruct H].
  apply Z.eqb_eq in E. destruct H as [H | []].
  exists s, sp. repeat split; congruence.
Qed.

(** A run that returns has added the rows of its records. *)
Lemma populate_loop_inv (db : database) (shot_ids : list Z)
    (table : list metrics_row) (n : nat) (state : list metrics_row * nat) :
  populate_loop db shot_ids (table, n) = Ok state ->
  state = (table ++ rows_of db shot_ids,
           (n + List.length (rows_of db shot_ids))%nat).
Proof.
  revert table n. induction shot_ids as [| sid rest IH]; intros table n; simpl.
  - intros H. inversion H. rewrite app_nil_r, Nat.add_0_r. reflexivity.
  - unfold populate_step.
    destruct (process_shot_accuracy db sid) as [[m |] | e]; simpl;
      [| apply IH | discriminate].
    intros H. apply IH in H. rewrite H, <- app_assoc. simpl.
    f_equal. lia.
Qed.

Lemma populate_loop_runs (db : database) (shot_ids : list Z)
    (table : list metrics_row) (n : nat) :
  (forall sid, In sid shot_ids -> exists o, process_shot_accuracy db sid = Ok o) ->
  exists state, populate_loop db shot_ids (table, n) = Ok state.
Proof.
  revert table n. induction shot_ids as [| sid rest IH]; intros table n H; simpl.
  - eexists. reflexivity.
  - unfold populate_step.
    destruct (H sid (or_introl eq_refl)) as [o Ho]. rewrite Ho. simpl.
    destruct o as [m |]; simpl; apply IH; intros s Hs; apply H; right; exact Hs.
Qed.

Lemma populate_loop_raises (db : database) (shot_ids : list Z)
    (state : list metrics_row * nat) (e : exn) :
  populate_loop db shot_ids state = Raise e -> e = OverflowError.
Proof.
  revert state. induction shot_ids as [| sid rest IH]; intros state; simpl;
    [discriminate |].
  unfold populate_step.
  destruct (process_shot_accuracy db sid) as [[m |] | e'] eqn:E; simpl;
    [apply IH | apply IH |].
  intros H. inversion H. subst e'. apply (process_raises db sid e E).
Qed.

(** With all recorded coordinates in range the driver returns. *)
Lemma process_runs (db : database) (sid : Z) :
  all_in_range (map position_stone (stone_positions db)) ->
  exists o, process_shot_accuracy db sid = Ok o.
Proof.
  intros Hrange.
  destruct (shot_query db sid) as [| shot_data rest] eqn:Hq.
  - exists None. unfold process_shot_accuracy. rewrite Hq. reflexivity.
  - assert (Hpost : all_in_range (post_shot_query db sid)).
    { intros s Hs. apply Hrange. unfold post_shot_query in Hs.
      apply in_map_iff in Hs. destruct Hs as [sp [<- Hsp]].
      apply in_map. apply filter_In in Hsp. tauto. }
    pose proof (process_in_range db sid shot_data rest Hq Hpost) as H.
    destruct (find _ _); [destruct H as [r [Hr _]] |]; eexists; eassumption.
Qed.

(** A record is returned exactly for the shots with a thrown stone. *)
Lemma process_record_iff (db : database) (sid : Z) (o : option accuracy_record) :
  process_shot_accuracy db sid = Ok o ->
  has_thrown_stone db sid = match o with Some _ => true | None => false end.
Proof.
  unfold has_thrown_stone.
  destruct (shot_query db sid) as [| shot_data rest] eqn:Hq.
  - unfold process_shot_accuracy. rewrite Hq. intros H. inversion H. reflexivity.
  - rewrite (process_shot_accuracy_loaded db sid shot_data rest Hq).
    unfold shot_record.
    destruct (infer_target shot_data [] (post_shot_query db sid)) as [t | e];
      [simpl | discriminate].
    rewrite find_thrown_no_pre.
    destruct (find (has_color (shot_color shot_data)) (post_shot_query db sid))
      as [th |] eqn:Ef.
    + destruct (call_calculate_accuracy_metrics sid t th); simpl;
        [| discriminate].
      intros H. inversion H. apply find_some in Ef.
      apply existsb_exists. exists th. exact Ef.
    + intros H. inversion H.
      destruct (existsb _ _) eqn:Ee; [| reflexivity].
      apply existsb_exists in Ee. destruct Ee as [x [Hx Hc]].
      rewrite (find_none _ _ Ef x Hx) in Hc. discriminate.
Qed.

Lemma rows_of_ids (db : database) (shot_ids : list Z) :
  map row_shot_id (rows_of db shot_ids)
  = filter (fun sid => match process_shot_accuracy db sid with
                       | Ok (Some _) => true
                       | _ => false
                       end) shot_ids.
Proof.
  induction shot_ids as [| sid rest IH]; simpl; [reflexivity |].
  destruct (process_shot_accuracy db sid) as [[m |] | e] eqn:E; simpl;
    try assumption.
  rewrite IH. f_equal.
  destruct (process_record_inv db sid m E)
    as [sd [rs [th [t [Hq [Hth [Ht Hm]]]]]]].
  rewrite Hm. reflexivity.
Qed.

(** In a run that returns, the rows are those of the shots with a thrown
    stone. *)
Lemma rows_of_thrown (db : database) (shot_ids : list Z)
    (table : list metrics_row) (n : nat) (state : list metrics_row * nat) :
  populate_loop db shot_ids (table, n) = Ok state ->
  map row_shot_id (rows_of db shot_ids) = filter (has_thrown_stone db) shot_ids.
Proof.
  rewrite rows_of_ids. revert table n.
  induction shot_ids as [| sid rest IH]; intros table n; simpl; [reflexivity |].
  unfold populate_step.
  destruct (process_shot_accuracy db sid) as [[m |] | e] eqn:E; simpl;
    [| | discriminate]; intros H;
    rewrite (process_record_iff db sid _ E), (IH _ _ H); reflexivity.
Qed.

Lemma filter_sorted (f : Z -> bool) (ids : list Z) :
  StronglySorted Z.lt ids -> StronglySorted Z.lt (filter f ids).
Proof.
  induction ids as [| h t IH]; intros Hs; simpl; [constructor |].
  inversion Hs as [| ? ? Ht Hall]. subst.
  destruct (f h); [| auto]. constructor; [auto |].
  rewrite Forall_forall in *. intros x Hx. apply filter_In in Hx. apply Hall, Hx.
Qed.

(** X17.  A population run raises nothing but [OverflowError], and
    nothing at all when the recorded coordinates are at most 1e153 in
    magnitude.  A run that returns has only appended: the table after the
    run is the table before it followed by the new rows, and the printed
    count is the number of new rows, at most 100.  The new rows are those of
    the queried shots that are in the shots table and after which a stone of
    the shooting color is recorded, one per shot, in increasing order of
    shot identifier, each holding the fields of the record the driver
    returns for the shot. *)
Theorem populate_appends_rows (db : database) (table : list metrics_row) :
  (forall e, populate_enhanced_accuracy_data db table = Raise e ->
     e = OverflowError)
  /\ ((forall sp, In sp (stone_positions db) ->
         Rabs (stone_x (position_stone sp)) <= 10 ^ 153
         /\ Rabs (stone_y (position_stone sp)) <= 10 ^ 153) ->
      exists rows,
        populate_enhanced_accuracy_data db table
        = Ok (table ++ rows, List.length rows))
  /\ (forall table' count,
        populate_enhanced_accuracy_data db table = Ok (table', count) ->
        exists rows,
          table' = table ++ rows
          /\ count = List.length rows
          /\ (List.length rows <= 100)%nat
          /\ StronglySorted Z.lt (map row_shot_id rows)
          /\ map row_shot_id rows
             = filter (has_thrown_stone db) (shots_with_positions db)
          /\ forall row, In row rows ->
               (exists r, process_shot_accuracy db (row_shot_id row) = Ok (Some r)
                          /\ row = row_of r)
               /\ In (row_shot_id row) (map shot_id (shots db))
               /\ post_shot_query db (row_shot_id row) <> []).
Proof.
  unfold populate_enhanced_accuracy_data.
  split; [intros e; apply populate_loop_raises |]. split.
  - intros Hrange.
    destruct (populate_loop_runs db (shots_with_positions db) table 0) as [st Hst].
    { intros sid _. apply process_runs. intros s Hs.
      apply in_map_iff in Hs. destruct Hs as [sp [<- Hsp]].
      apply Hrange. exact Hsp. }
    rewrite Hst. apply populate_loop_inv in Hst. subst st.
    exists (rows_of db (shots_with_positions db)). reflexivity.
  - intros table' count Hrun.
    pose proof (rows_of_thrown db _ _ _ _ Hrun) as Hids.
    apply populate_loop_inv in Hrun. inversion Hrun. clear Hrun.
    exists (rows_of db (shots_with_positions db)).
    split; [reflexivity |]. split; [reflexivity |]. split.
    { rewrite <- (length_map row_shot_id), rows_of_ids.
      etransitivity; [apply filter_length_le |].
      unfold shots_with_positions. apply firstn_le_length. }
    split.
    { rewrite rows_of_ids. apply filter_sorted, shots_with_positions_sorted. }
    split; [exact Hids |].
    intros row Hrow. unfold rows_of in Hrow. apply in_flat_map in Hrow.
    destruct Hrow as [sid [Hsid Hrow]].
    destruct (process_shot_accuracy db sid) as [[m |] | e] eqn:E;
      [| destruct Hrow | destruct Hrow].
    destruct Hrow as [<- | []].
    assert (Hid : row_shot_id (row_of m) = sid).
    { destruct (process_record_inv db sid m E)
        as [sd [rs [th [t [Hq [Hth [Ht Hm]]]]]]].
      rewrite Hm. reflexivity. }
    rewrite Hid. split; [exists m; auto |].
    destruct (shots_with_positions_In db sid Hsid) as [s [sp [Hs [Hsp [Hs1 Hs2]]]]].
    split.
    + rewrite <- Hs1. apply in_map. assumption.
    + unfold post_shot_query. intros Hnil.
      assert (Hin : In (position_stone sp)
                       (map position_stone
                          (filter (fun sp => (position_shot_id sp =? sid)%Z)
                                  (stone_positions db)))).
      { apply in_map. apply filter_In. split; [assumption |].
        apply Z.eqb_eq. assumption. }
      rewrite Hnil in Hin. destruct Hin.
Qed.

(** A run over [three_shots] stores a row for each of the three shots, also
    for the third, whose red stone at (1, 1) lay there before. *)
Lemma populate_appends_rows_witness :
  exists rows,
    populate_enhanced_accuracy_data three_shots [] = Ok (rows, 3%nat)
    /\ map row_shot_id rows = [1; 2; 3]%Z.
Proof.
  destruct (proj1 (proj2 (populate_appends_rows three_shots []))) as [rows Hrun].
  { simpl. intros sp Hsp.
    repeat (destruct Hsp as [<- | Hsp];
            [split; apply small_in_range, Rabs_le; simpl; lra |]).
    destruct Hsp. }
  destruct (proj2 (proj2 (populate_appends_rows three_shots [])) _ _ Hrun)
    as [rows' [Heq [_ [_ [_ [Hids _]]]]]].
  simpl in Heq. subst rows'. exists rows.
  assert (Hthree : map row_shot_id rows = [1; 2; 3]%Z) by exact Hids.
  split; [| exact Hthree].
  rewrite Hrun. simpl. rewrite <- (length_map row_shot_id), Hthree. reflexivity.
Defined.

(** X18.  A second population run stores every row of the first run once
    more: the run does not look at the rows already in the table, so, when
    the first run returns, the second appends the same rows again and prints
    the same count.  Both runs return when the recorded coordinates are at
    most 1e153 in magnitude. *)
Theorem populate_twice_duplicates (db : database) (table : list metrics_row) :
  (forall table' count,
      populate_enhanced_accuracy_data db table = Ok (table', count) ->
      exists rows,
        table' = table ++ rows
        /\ count = List.length rows
        /\ populate_enhanced_accuracy_data db table'
           = Ok (table' ++ rows, count))
  /\ ((forall sp, In sp (stone_positions db) ->
         Rabs (stone_x (position_stone sp)) <= 10 ^ 153
         /\ Rabs (stone_y (position_stone sp)) <= 10 ^ 153) ->
      exists rows,
        populate_enhanced_accuracy_data db table
        = Ok (table ++ rows, List.length rows)
        /\ populate_enhanced_accuracy_data db (table ++ rows)
           = Ok ((table ++ rows) ++ rows, List.length rows)).
Proof.
  unfold populate_enhanced_accuracy_data.
  assert (Hagain : forall t t' count,
            populate_loop db (shots_with_positions db) (t, 0%nat) = Ok (t', count) ->
            populate_loop db (shots_with_positions db) (t', 0%nat)
            = Ok (t' ++ rows_of db (shots_with_positions db), count)).
  { intros t t' count Hrun.
    destruct (populate_loop_runs db (shots_with_positions db) t' 0) as [st Hst].
    - intros sid Hsid.
      destruct (process_shot_accuracy db sid) as [o | e] eqn:E;
        [exists o; reflexivity | exfalso].
      clear - Hrun Hsid E. revert t Hrun.
      generalize 0%nat.
      induction (shots_with_positions db) as [| s l IH]; intros n t Hrun;
        [destruct Hsid |].
      simpl in Hrun. unfold populate_step in Hrun.
      destruct Hsid as [-> | Hsid].
      + rewrite E in Hrun. discriminate.
      + destruct (process_shot_accuracy db s) as [[m |] | e']; simpl in Hrun;
          [| | discriminate]; eapply IH; eassumption.
    - rewrite Hst. apply populate_loop_inv in Hst. rewrite Hst.
      apply populate_loop_inv in Hrun. inversion Hrun. reflexivity. }
  split.
  - intros table' count Hrun.
    exists (rows_of db (shots_with_positions db)).
    pose proof (Hagain _ _ _ Hrun) as H2.
    apply populate_loop_inv in Hrun. inversion Hrun. subst.
    split; [reflexivity |]. split; [reflexivity |]. exact H2.
  - intros Hrange.
    destruct (populate_loop_runs db (shots_with_positions db) table 0) as [st Hst].
    { intros sid _. apply process_runs. intros s Hs.
      apply in_map_iff in Hs. destruct Hs as [sp [<- Hsp]].
      apply Hrange. exact Hsp. }
    pose proof (populate_loop_inv _ _ _ _ _ Hst) as Hinv. subst st.
    exists (rows_of db (shots_with_positions db)).
    split; [exact Hst |]. apply (Hagain _ _ _ Hst).
Qed.

(** Two runs over [three_shots]. *)
Lemma populate_twice_duplicates_witness :
  exists rows,
    populate_enhanced_accuracy_data three_shots []
    = Ok ([] ++ rows, List.length rows)
    /\ populate_enhanced_accuracy_data three_shots ([] ++ rows)
       = Ok (([] ++ rows) ++ rows, List.length rows).
Proof.
  apply (proj2 (populate_twice_duplicates three_shots [])).
  simpl. intros sp Hsp.
  repeat (destruct Hsp as [<- | Hsp];
          [split; apply small_in_range, Rabs_le; simpl; lra |]).
  destruct Hsp.
Defined.

(** * Properties of the parameter export *)

Lemma export_row_fails (d : list (string * type_accuracy)) (row : accuracy_stat) :
  export_row d (series_of row) = KeyError "std_distance_error".
Proof.
  unfold export_row, float_or, getitem. simpl.
  destruct (stat_avg_distance_error row) as [r |]; reflexivity.
Qed.

(** X19.  The export never returns parameters computed from the database.
    Its loop asks every row for a column the query does not select, so the
    first row already fails and the fixed values for Draw, Take-out and
    Guard are returned; they are also returned when the query itself fails.
    Only when the query answers no row at all is the result empty. *)
Theorem export_never_calibrated (answer : attempt (list accuracy_stat)) :
  (answer = Got [] -> export_accuracy_parameters answer = [])
  /\ (answer <> Got [] -> export_accuracy_parameters answer = default_accuracy)
  /\ (forall row rest d,
        export_rows d (row :: rest) = KeyError "std_distance_error").
Proof.
  split; [| split].
  - intros ->. reflexivity.
  - intros Hne. unfold export_accuracy_parameters.
    destruct answer as [rows | key | |]; try reflexivity.
    destruct rows as [| row rest]; [congruence |].
    simpl. rewrite export_row_fails. reflexivity.
  - intros row rest d. simpl. rewrite export_row_fails. reflexivity.
Qed.

(** Forty draws averaging 11 cm and 2 degrees. *)
Lemma export_never_calibrated_witness :
  export_accuracy_parameters
    (Got [mkStat "Draw" (Some (11 / 100)) (Some 2) 40])
  = default_accuracy.
Proof.
  apply (proj1 (proj2 (export_never_calibrated
                         (Got [mkStat "Draw" (Some (11 / 100)) (Some 2) 40])))).
  discriminate.
Defined.

(** * Properties of the pipeline's metric step *)

(** The third shot of [three_shots] in the pipeline. *)
Lemma pipeline_third_shot :
  exists row,
    pipeline_shot three_shots (mkScored (mkShot 3 1 3 "red" "Draw") 80)
    = Ok (Some row)
    /\ row_final_position_x (pipeline_metrics row) = 0
    /\ row_final_position_y (pipeline_metrics row) = 1.
Proof.
  rewrite pipeline_shot_loaded.
  destruct (shot_record_in_range 3 (mkShot 3 1 3 "red" "Draw")
              [mkStone "red" 1 1; mkStone "yellow" 0 2]
              [mkStone "red" 1 1; mkStone "yellow" 0 2; mkStone "red" 0 1]
              (mkStone "red" 0 1)) as [t [_ Hr]].
  - unfold _find_thrown_stone, is_new_stone, xy_in, xy_eqb. decide_R. reflexivity.
  - small_stones.
  - small_stones.
  - change (shot_record 3 (mkShot 3 1 3 "red" "Draw")
              [mkStone "red" 1 1; mkStone "yellow" 0 2]
              [mkStone "red" 1 1; mkStone "yellow" 0 2; mkStone "red" 0 1]
            = Ok (Some (mkRecord
                          (calculate_accuracy_metrics 3 t (mkStone "red" 0 1)) 3
                          0 1 (target_x t) (target_y t) (confidence t)))) in Hr.
    change (previous_positions three_shots
              (scored_row (mkScored (mkShot 3 1 3 "red" "Draw") 80)))
      with [mkStone "red" 1 1; mkStone "yellow" 0 2].
    change (post_shot_query three_shots
              (shot_id (scored_row (mkScored (mkShot 3 1 3 "red" "Draw") 80))))
      with [mkStone "red" 1 1; mkStone "yellow" 0 2; mkStone "red" 0 1].
    change (shot_id (scored_row (mkScored (mkShot 3 1 3 "red" "Draw") 80)))
      with 3%Z.
    change (scored_row (mkScored (mkShot 3 1 3 "red" "Draw") 80))
      with (mkShot 3 1 3 "red" "Draw").
    rewrite Hr. eexists. split; [reflexivity |]. split; reflexivity.
Qed.

(** X20.  The pipeline's step and the processor agree where the pipeline
    finds no stone recorded for the previous shot, as on the first shot of
    an end: the step stores a row exactly when the processor returns a
    record, and the row holds the fields of that record, with
    [outcome_success] 1 for a score above 75 and 0 otherwise and the score
    divided by 100; where the processor raises, so does the step.  They
    differ elsewhere, because only the pipeline loads the stones of the
    previous shot: for the third shot of [three_shots] the processor
    records the red stone at (1, 1), which lay there before the shot, and
    the pipeline the red stone at (0, 1). *)
Theorem pipeline_agrees_with_processor :
  (forall (db : database) (scored : scored_shot) (rest : list shot),
      let shot_data := scored_row scored in
      shot_query db (shot_id shot_data) = shot_data :: rest ->
      ((shot_number shot_data <= 1)%Z
       \/ prev_shot_query db (PyInt (shot_end_id shot_data))
                             (PyInt (shot_number shot_data - 1)) = []) ->
      (process_shot_accuracy db (shot_id shot_data) = Ok None ->
       pipeline_shot db scored = Ok None)
      /\ (forall r,
            process_shot_accuracy db (shot_id shot_data) = Ok (Some r) ->
            pipeline_shot db scored
            = Ok (Some (mkPipelineRow (row_of r)
                          (if Rltb 75 (percent_score scored) then 1 else 0)
                          (percent_score scored / 100))))
      /\ (forall e,
            process_shot_accuracy db (shot_id shot_data) = Raise e ->
            pipeline_shot db scored = Raise e))
  /\ (exists r row,
        process_shot_accuracy three_shots 3 = Ok (Some r)
        /\ pipeline_shot three_shots (mkScored (mkShot 3 1 3 "red" "Draw") 80)
           = Ok (Some row)
        /\ final_position_x r = 1 /\ final_position_y r = 1
        /\ row_final_position_x (pipeline_metrics row) = 0
        /\ row_final_position_y (pipeline_metrics row) = 1).
Proof.
  split.
  - intros db scored rest shot_data Hq Hprev.
    assert (Hpre : previous_positions db shot_data = []).
    { destruct Hprev as [Hfirst | Hnone].
      - apply previous_positions_first. assumption.
      - unfold previous_positions. destruct (1 <? _)%Z; [exact Hnone | reflexivity]. }
    rewrite pipeline_shot_loaded. fold shot_data. rewrite Hpre.
    rewrite (process_shot_accuracy_loaded db _ shot_data rest Hq).
    split; [| split].
    + intros ->. reflexivity.
    + intros r ->. reflexivity.
    + intros e ->. reflexivity.
  - assert (Hrange : all_in_range (post_shot_query three_shots 3))
      by small_stones.
    pose proof (process_in_range three_shots 3 (mkShot 3 1 3 "red" "Draw") []
                  eq_refl Hrange) as H.
    simpl in H. destruct H as [r [Hr [Hx Hy]]].
    destruct pipeline_third_shot as [row [Hrow [Hrx Hry]]].
    exists r, row. repeat split; assumption.
Qed.

(** A hit and roll scored 80, the first shot of its end. *)
Lemma pipeline_agrees_with_processor_witness :
  exists row,
    pipeline_shot (first_shot_db "Hit and Roll" [mkStone "red" 1 (-2)])
      (mkScored (mkShot 1 1 1 "red" "Hit and Roll") 80) = Ok (Some row)
    /\ outcome_success row = 1%Z
    /\ row_final_position_x (pipeline_metrics row) = 1.
Proof.
  destruct (first_shot_db_record "Hit and Roll" [mkStone "red" 1 (-2)]
              (mkStone "red" 1 (-2)) eq_refl) as [r [Hr [Hx _]]]; [small_stones |].
  assert (Hfirst : (shot_number (scored_row
                      (mkScored (mkShot 1 1 1 "red" "Hit and Roll") 80)) <= 1)%Z)
    by (simpl; lia).
  eexists. split.
  - apply (proj1 (proj2 (proj1 pipeline_agrees_with_processor
             (first_shot_db "Hit and Roll" [mkStone "red" 1 (-2)])
             (mkScored (mkShot 1 1 1 "red" "Hit and Roll") 80) [] eq_refl
             (or_introl Hfirst))) r Hr).
  - simpl. rewrite (proj2 (Rltb_true_iff 75 80)) by lra.
    split; [reflexivity | exact Hx].
Defined.

(** * Properties of the generated dataset rows *)

Lemma py_max_spec (a b : R) : a <= py_max a b /\ b <= py_max a b
                              /\ (py_max a b = a \/ py_max a b = b).
Proof.
  unfold py_max. destruct (Rltb a b) eqn:E.
  - apply Rltb_true_iff in E. repeat split; auto; lra.
  - apply Rltb_false_iff in E. repeat split; auto; lra.
Qed.

Lemma py_min_spec (a b : R) : py_min a b <= a /\ py_min a b <= b
                              /\ (py_min a b = a \/ py_min a b = b).
Proof.
  unfold py_min. destruct (Rltb b a) eqn:E.
  - apply Rltb_true_iff in E. repeat split; auto; lra.
  - apply Rltb_false_iff in E. repeat split; auto; lra.
Qed.

(** X23.  Whatever values are drawn, a generated row stores a distance
    error between 0 and 3 and a direction error between 0 and 25; since the
    direction error is made non-negative before it is labelled, the
    direction category is on_line or right and never left.  A row labelled
    on_target is always minor, and a major row is always long. *)
Theorem generated_row_ranges (target_distance_error direction_error : R)
    (is_successful : bool) (score : Z) :
  let g := generate_metrics target_distance_error direction_error
                            is_successful score in
  0 <= generated_distance_error g <= 3
  /\ 0 <= generated_direction_error g <= 25
  /\ (generated_direction_category g = "on_line"
      \/ generated_direction_category g = "right")
  /\ generated_direction_category g <> "left"
  /\ (generated_distance_category g = "on_target" ->
      generated_error_magnitude g = "minor")
  /\ (generated_error_magnitude g = "major" ->
      generated_distance_category g = "long").
Proof.
  intros g. subst g. unfold generate_metrics.
  cbv beta iota zeta delta [generated_distance_error generated_direction_error
    generated_distance_category generated_direction_category
    generated_error_magnitude].
  set (d := py_max 0 (py_min 3 target_distance_error)).
  set (a := py_max (-25) (py_min 25 (Rabs direction_error))).
  assert (Hd : 0 <= d <= 3).
  { subst d. pose proof (py_max_spec 0 (py_min 3 target_distance_error)).
    pose proof (py_min_spec 3 target_distance_error). intuition lra. }
  assert (Ha : 0 <= a <= 25).
  { subst a. pose proof (py_max_spec (-25) (py_min 25 (Rabs direction_error))).
    pose proof (py_min_spec 25 (Rabs direction_error)).
    pose proof (Rabs_pos direction_error). intuition lra. }
  assert (Hneg : Rltb a 0 = false) by (apply Rltb_false_iff; lra).
  rewrite Hneg.
  split; [assumption |]. split; [assumption |].
  split; [destruct (Rltb (Rabs a) 3); auto |].
  split; [destruct (Rltb (Rabs a) 3); discriminate |].
  destruct (Rltb d (2 / 10)) eqn:E2.
  - apply Rltb_true_iff in E2.
    rewrite (proj2 (Rltb_true_iff d (3 / 10))) by lra.
    split; [reflexivity | discriminate].
  - split; [destruct (Rltb d (5 / 10)); discriminate |].
    destruct (Rltb d (3 / 10)); [discriminate |].
    destruct (Rltb d (8 / 10)) eqn:E8; [discriminate |].
    apply Rltb_false_iff in E8.
    rewrite (proj2 (Rltb_false_iff d (5 / 10))) by lra. reflexivity.
Qed.

(** * Properties of the success modifiers *)

Lemma dict_set_In {V : Type} (d : list (string * V)) (key : string) (value : V)
    (k : string) (v : V) :
  In (k, v) (dict_set d key value) -> (k = key /\ v = value) \/ In (k, v) d.
Proof.
  induction d as [| [k' v'] rest IH]; simpl.
  - intros [H | []]. inversion H. auto.
  - destruct (String.eqb_spec key k') as [-> | Hne]; simpl.
    + intros [H | H]; [inversion H; auto | auto].
    + intros [H | H]; [auto |]. destruct (IH H); auto.
Qed.

Lemma lookup_dict_set {V : Type} (d : list (string * V)) (key : string)
    (value : V) (k : string) :
  lookup k (dict_set d key value)
  = if String.eqb k key then Some value else lookup k d.
Proof.
  induction d as [| [k' v'] rest IH]; simpl.
  - destruct (String.eqb k key); reflexivity.
  - destruct (String.eqb_spec key k') as [-> | Hne]; simpl.
    + destruct (String.eqb k k'); reflexivity.
    + rewrite IH. destruct (String.eqb_spec k k') as [-> | Hne'].
      * destruct (String.eqb_spec k' key); [congruence | reflexivity].
      * reflexivity.
Qed.

Lemma sum_bound (a b : R) (values : list R) :
  (forall v, In v values -> a <= v <= b) ->
  INR (List.length values) * a <= fold_right Rplus 0 values
  <= INR (List.length values) * b.
Proof.
  induction values as [| v rest IH]; intros H.
  - simpl. lra.
  - change (List.length (v :: rest)) with (S (List.length rest)).
    rewrite S_INR. simpl fold_right.
    assert (Hv := H v (or_introl eq_refl)).
    assert (Hrest := IH (fun w Hw => H w (or_intror Hw))).
    lra.
Qed.

Lemma mean_bound (a b : R) (values : list R) (m : R) :
  (forall v, In v values -> a <= v <= b) ->
  mean values = Some m -> a <= m <= b.
Proof.
  intros H Hm. destruct values as [| v rest]; [discriminate |].
  pose proof (sum_bound a b (v :: rest) H) as Hs.
  assert (Hn : 0 < INR (List.length (v :: rest)))
    by (apply lt_0_INR; simpl; lia).
  assert (Hm' : m = fold_right Rplus 0 (v :: rest)
                    / INR (List.length (v :: rest)))
    by (unfold mean in Hm; congruence).
  set (n := INR (List.length (v :: rest))) in *.
  set (s := fold_right Rplus 0 (v :: rest)) in *.
  assert (Hmn : m * n = s) by (rewrite Hm'; field; lra).
  split.
  - apply Rmult_le_reg_r with n; [assumption |]. lra.
  - apply Rmult_le_reg_r with n; [assumption |]. lra.
Qed.

Lemma mean_Some_iff (values : list R) :
  (exists m, mean values = Some m) <-> values <> [].
Proof.
  destruct values; simpl; split.
  - intros [m H]. discriminate.
  - congruence.
  - discriminate.
  - intros _. eexists. reflexivity.
Qed.

(** X24.  When the averages read from the database are percentages
    between 0 and 100, every base success rate and every phase modifier is
    a probability between 0 and 1, and the phases with a modifier are among
    early, middle and late. *)
Theorem success_rates_are_probabilities (shot_types_df : list shot_type_row)
    (situational_df : list situational_row) (pressure_df : list pressure_row) :
  (forall row, In row shot_types_df -> 0 <= type_avg_success row <= 100) ->
  (forall row, In row situational_df -> 0 <= situational_avg_success row <= 100) ->
  let m := calculate_success_modifiers shot_types_df situational_df pressure_df in
  (forall ty rate, In (ty, rate) (base_success_rates m) ->
     0 <= rate <= 1 /\ In ty (map type_name shot_types_df))
  /\ (forall phase modifier, In (phase, modifier) (phase_modifiers m) ->
        0 <= modifier <= 1 /\ In phase ["early"; "middle"; "late"]).
Proof.
  intros Htypes Hsit m. subst m. unfold calculate_success_modifiers.
  cbv beta iota zeta delta [base_success_rates phase_modifiers].
  split.
  - assert (Hgen : forall rows d,
              (forall row, In row rows -> 0 <= type_avg_success row <= 100) ->
              forall ty rate,
                In (ty, rate)
                   (fold_left (fun d row =>
                                 dict_set d (type_name row)
                                          (type_avg_success row / 100)) rows d) ->
                In (ty, rate) d
                \/ (0 <= rate <= 1 /\ In ty (map type_name rows))).
    { induction rows as [| row rest IH]; intros d Hr ty rate Hin; simpl in *.
      - auto.
      - destruct (IH _ (fun r Hr' => Hr r (or_intror Hr')) ty rate Hin)
          as [Hd | [Hrate Hty]]; [| auto].
        apply dict_set_In in Hd. destruct Hd as [[-> ->] | Hd]; [| auto].
        right. pose proof (Hr row (or_introl eq_refl)). split; [lra | auto]. }
    intros ty rate Hin.
    destruct (Hgen shot_types_df [] Htypes ty rate Hin) as [[] | H]. exact H.
  - intros phase modifier Hin. cbv beta iota delta [fold_left] in Hin.
    assert (Hstep : forall p d k v,
              In (k, v)
                 match mean (map situational_avg_success
                               (filter (fun row =>
                                          String.eqb (situational_shot_phase row) p)
                                       situational_df)) with
                 | Some mv => dict_set d p (mv / 100)
                 | None => d
                 end ->
              In (k, v) d \/ (k = p /\ 0 <= v <= 1)).
    { intros p d k v.
      remember (mean (map situational_avg_success
                       (filter (fun row =>
                                  String.eqb (situational_shot_phase row) p)
                               situational_df))) as mo eqn:Em.
      symmetry in Em. destruct mo as [mv |]; intros H; [| auto].
      apply dict_set_In in H. destruct H as [[-> ->] | H]; [| auto].
      right. split; [reflexivity |].
      assert (Hb : 0 <= mv <= 100).
      { refine (mean_bound 0 100 _ mv _ Em).
        intros v Hv. apply in_map_iff in Hv. destruct Hv as [row [<- Hrow]].
        apply filter_In in Hrow. apply Hsit, Hrow. }
      lra. }
    apply Hstep in Hin. destruct Hin as [Hin | [-> Hv]]; [| simpl; auto].
    apply Hstep in Hin. destruct Hin as [Hin | [-> Hv]]; [| simpl; auto].
    apply Hstep in Hin. destruct Hin as [[] | [-> Hv]]. simpl; auto.
Qed.

(** Draws at 82 per cent, and one early row at 90 per cent. *)
Lemma success_rates_are_probabilities_witness :
  0 <= 82 / 100 <= 1 /\ In "Draw" (map type_name [mkShotTypeRow "Draw" 40 82]).
Proof.
  apply (proj1 (success_rates_are_probabilities [mkShotTypeRow "Draw" 40 82]
                  [mkSituationalRow "early" 90] []
                  ltac:(intros row [<- | []]; simpl; lra)
                  ltac:(intros row [<- | []]; simpl; lra))
               "Draw" (82 / 100)).
  left. reflexivity.
Defined.

Lemma mean_where_None {A : Type} (f : A -> R) (keep : A -> bool) (l : list A) :
  mean (map f (filter keep l)) = None <-> forall a, In a l -> keep a = false.
Proof.
  split.
  - intros Hm a Ha. destruct (keep a) eqn:E; [exfalso | reflexivity].
    assert (Hin : In (f a) (map f (filter keep l)))
      by (apply in_map, filter_In; auto).
    destruct (map f (filter keep l)); [destruct Hin | discriminate].
  - intros H. replace (filter keep l) with (@nil A); [reflexivity |].
    symmetry. induction l as [| a l IH]; simpl; [reflexivity |].
    rewrite (H a) by (left; reflexivity).
    apply IH. intros b Hb. apply H. right. assumption.
Qed.

Lemma set_ratio_lookup (d : list (string * R)) (key : string) (a b : option R)
    (k : string) :
  lookup k (set_ratio d key a b)
  = if String.eqb k key
    then match a, b with
         | Some av, Some bv => Some (av / bv)
         | _, _ => lookup k d
         end
    else lookup k d.
Proof.
  unfold set_ratio. destruct b as [bv |], a as [av |];
    try (destruct (String.eqb k key); reflexivity).
  apply lookup_dict_set.
Qed.

(** X25.  A situational modifier is produced exactly when both of its
    averages exist: HAMMER_PRESSURE when the pressure frame has an
    early_setup row and a hammer_pressure row, STEAL_PRESSURE when it has an
    early_setup row and a steal_pressure row, FATIGUE_FACTOR when it has a
    row of an end up to 3 and a row of an end from 8 on.  An empty pressure
    frame produces none. *)
Theorem situational_modifier_keys (shot_types_df : list shot_type_row)
    (situational_df : list situational_row) (pressure_df : list pressure_row) :
  let m := calculate_success_modifiers shot_types_df situational_df pressure_df in
  let has (keep : pressure_row -> bool) :=
    exists row, In row pressure_df /\ keep row = true in
  let situation (name : string) (row : pressure_row) :=
    String.eqb (pressure_situation row) name in
  (lookup "HAMMER_PRESSURE" (situational_modifiers m) <> None <->
   has (situation "early_setup") /\ has (situation "hammer_pressure"))
  /\ (lookup "STEAL_PRESSURE" (situational_modifiers m) <> None <->
      has (situation "early_setup") /\ has (situation "steal_pressure"))
  /\ (lookup "FATIGUE_FACTOR" (situational_modifiers m) <> None <->
      has (fun row => (pressure_end_number row <=? 3)%Z)
      /\ has (fun row => (8 <=? pressure_end_number row)%Z))
  /\ (pressure_df = [] -> situational_modifiers m = []).
Proof.
  intros m has situation.
  assert (Hhas : forall keep,
            has keep <-> mean (map pressure_avg_success (filter keep pressure_df))
                         <> None).
  { intros keep. rewrite mean_where_None. subst has. cbv beta. split.
    - intros [row [Hin Hk]] Hall. rewrite (Hall row Hin) in Hk. discriminate.
    - intros Hn.
      assert (Hex : existsb keep pressure_df = true).
      { destruct (existsb keep pressure_df) eqn:E; [reflexivity | exfalso].
        apply Hn. intros a Ha.
        destruct (keep a) eqn:Ek; [| reflexivity].
        assert (existsb keep pressure_df = true)
          by (apply existsb_exists; exists a; auto).
        congruence. }
      apply existsb_exists in Hex. exact Hex. }
  subst m. unfold calculate_success_modifiers.
  cbv beta iota zeta delta [situational_modifiers].
  rewrite !set_ratio_lookup. simpl String.eqb. cbv iota. simpl lookup.
  rewrite !Hhas. subst situation. cbv beta.
  split; [| split; [| split]].
  - destruct (mean _) as [h |]; destruct (mean _) as [b |];
      split; intros H; try tauto; try (split; discriminate);
      destruct H; congruence.
  - destruct (mean (map pressure_avg_success
                      (filter (fun row =>
                                 String.eqb (pressure_situation row)
                                            "steal_pressure") pressure_df)))
      as [h |];
      destruct (mean (map pressure_avg_success
                        (filter (fun row =>
                                   String.eqb (pressure_situation row)
                                              "early_setup") pressure_df)))
        as [b |];
      split; intros H; try tauto; try (split; discriminate);
      destruct H; congruence.
  - destruct (mean (map pressure_avg_success
                      (filter (fun row => (8 <=? pressure_end_number row)%Z)
                              pressure_df))) as [h |];
      destruct (mean (map pressure_avg_success
                        (filter (fun row => (pressure_end_number row <=? 3)%Z)
                                pressure_df))) as [b |];
      split; intros H; try tauto; try (split; discriminate);
      destruct H; congruence.
  - intros ->. reflexivity.
Qed.

